(** * GhostDB LRU list: store/lru/doubly_linked_list.go

    A shallow embedding of the sentinel-delimited doubly-linked list that
    orders the entries of the GhostDB cache by recency, together with the
    properties its specification states about it.

    Go pointers are addresses into a finite heap of [Node] objects, [nil] is
    [None]; dereferencing [nil] panics.  The [List] object, its mutex and a
    chronological trace of lock operations and field accesses make up the
    rest of the state.  [Size] is an [int32]: [atomic.AddInt32] wraps. *)

From stdpp Require Import gmap strings pretty list fin_maps.
From Stdlib Require Import ZArith Lia.

Local Open Scope Z_scope.

(** ** Data model *)

(** Addresses of heap-allocated [Node] objects. *)
Abbreviation loc := positive.

(** A [*Node]. *)
Abbreviation ptr := (option loc).

(** [interface{}]: the dynamic values a caller may store. *)
Inductive Any : Type :=
  | VNil
  | VString (s : string)
  | VInt (n : Z)
  | VBool (b : bool).

(** [type Node struct]; the per-node [Mux] is never touched by any function
    of the file and carries no state here. *)
Record Node : Type := mkNode {
  Key : string;
  Value : Any;
  TTL : Z;
  CreatedAt : Z;
  Prev : ptr;
  Next : ptr
}.

(** [type List struct]; [Mux] lives in the [State] below. *)
Record List : Type := mkList {
  Head : ptr;
  Tail : ptr;
  Size : Z
}.

(** [error]: [nil] or [errors.New msg]. *)
Abbreviation error := (option string).

Definition EmptyList : string := "List is empty".

(** Two's complement wrap-around of [int32] arithmetic. *)
Definition wrap32 (z : Z) : Z := (z + 2 ^ 31) mod 2 ^ 32 - 2 ^ 31.

Definition set_Prev (p : ptr) (n : Node) : Node :=
  mkNode (Key n) (Value n) (TTL n) (CreatedAt n) p (Next n).

Definition set_Next (p : ptr) (n : Node) : Node :=
  mkNode (Key n) (Value n) (TTL n) (CreatedAt n) (Prev n) p.

(** ** State, trace and the execution monad *)

Inductive Field : Type :=
  | FHead
  | FTail
  | FSize
  | FPrev (a : loc)
  | FNext (a : loc).

Inductive Event : Type :=
  | EvLock
  | EvUnlock
  | EvAlloc (a : loc)
  | EvLoad (f : Field)
  | EvStore (f : Field).

Record State : Type := mkState {
  nodes : gmap loc Node;   (* the heap of Node objects *)
  ll : List;               (* the List object [ll] points to *)
  mux : bool;              (* [ll.Mux] is held *)
  trace : list Event       (* what has happened so far, oldest first *)
}.

(** How a call ends: it returns, it panics (nil dereference, unlock of an
    unlocked mutex), or it blocks for ever on a mutex that is held. *)
Inductive Outcome (A : Type) : Type :=
  | Ret (a : A)
  | Panic
  | Blocked.
Arguments Ret {A} a.
Arguments Panic {A}.
Arguments Blocked {A}.

Definition M (A : Type) : Type := State → Outcome A * State.

Definition ret {A} (a : A) : M A := λ s, (Ret a, s).

Definition bind {A B} (m : M A) (f : A → M B) : M B := λ s,
  match m s with
  | (Ret a, s') => f a s'
  | (Panic, s') => (Panic, s')
  | (Blocked, s') => (Blocked, s')
  end.

Declare Scope go_scope.
Delimit Scope go_scope with go.
Notation "x <- m ;; k" := (bind m (λ x, k))
  (at level 100, m at next level, right associativity) : go_scope.
Notation "m ;; k" := (bind m (λ _, k))
  (at level 100, right associativity) : go_scope.
Local Open Scope go_scope.

Definition emit (e : Event) (s : State) : State :=
  mkState (nodes s) (ll s) (mux s) (trace s ++ [e]).

(** [ll.Mux.Lock()] *)
Definition lock : M unit := λ s,
  if mux s then (Blocked, s)
  else (Ret tt, mkState (nodes s) (ll s) true (trace s ++ [EvLock])).

(** [ll.Mux.Unlock()] *)
Definition unlock : M unit := λ s,
  if mux s then (Ret tt, mkState (nodes s) (ll s) false (trace s ++ [EvUnlock]))
  else (Panic, s).

(** [defer d] followed by [body]: [d] runs when [body] returns or panics. *)
Definition with_defer {A} (d : M unit) (body : M A) : M A := λ s,
  match body s with
  | (Ret a, s') =>
      match d s' with
      | (Ret _, s'') => (Ret a, s'')
      | (Panic, s'') => (Panic, s'')
      | (Blocked, s'') => (Blocked, s'')
      end
  | (Panic, s') => (Panic, snd (d s'))
  | (Blocked, s') => (Blocked, s')
  end.

(** [&Node{...}] *)
Definition alloc (n : Node) : M ptr := λ s,
  let a := fresh (dom (nodes s)) in
  (Ret (Some a), mkState (<[a := n]> (nodes s)) (ll s) (mux s) (trace s ++ [EvAlloc a])).

Definition load_Head : M ptr := λ s, (Ret (Head (ll s)), emit (EvLoad FHead) s).
Definition load_Tail : M ptr := λ s, (Ret (Tail (ll s)), emit (EvLoad FTail) s).
Definition load_Size : M Z := λ s, (Ret (Size (ll s)), emit (EvLoad FSize) s).

(** [atomic.AddInt32(&ll.Size, d)] *)
Definition add_Size (d : Z) : M unit := λ s,
  (Ret tt, mkState (nodes s) (mkList (Head (ll s)) (Tail (ll s)) (wrap32 (Size (ll s) + d)))
                   (mux s) (trace s ++ [EvLoad FSize; EvStore FSize])).

(** [p.Prev] and [p.Next] as r-values *)
Definition load_Prev (p : ptr) : M ptr := λ s,
  match p with
  | None => (Panic, s)
  | Some a =>
      match nodes s !! a with
      | None => (Panic, s)
      | Some n => (Ret (Prev n), emit (EvLoad (FPrev a)) s)
      end
  end.

Definition load_Next (p : ptr) : M ptr := λ s,
  match p with
  | None => (Panic, s)
  | Some a =>
      match nodes s !! a with
      | None => (Panic, s)
      | Some n => (Ret (Next n), emit (EvLoad (FNext a)) s)
      end
  end.

(** [p.Prev = v] and [p.Next = v] *)
Definition store_Prev (p v : ptr) : M unit := λ s,
  match p with
  | None => (Panic, s)
  | Some a =>
      match nodes s !! a with
      | None => (Panic, s)
      | Some n => (Ret tt, mkState (<[a := set_Prev v n]> (nodes s)) (ll s) (mux s)
                                   (trace s ++ [EvStore (FPrev a)]))
      end
  end.

Definition store_Next (p v : ptr) : M unit := λ s,
  match p with
  | None => (Panic, s)
  | Some a =>
      match nodes s !! a with
      | None => (Panic, s)
      | Some n => (Ret tt, mkState (<[a := set_Next v n]> (nodes s)) (ll s) (mux s)
                                   (trace s ++ [EvStore (FNext a)]))
      end
  end.

(** ** The five functions of the file *)

(** [func InitList() *List].  [t1] and [t2] are the two readings of
    [time.Now().Unix()]; [heap] is the memory the call finds. *)
Definition InitList (t1 t2 : Z) (heap : gmap loc Node) : State :=
  let headNode := fresh (dom heap) in
  let heap1 := <[headNode := mkNode "" (VString "") (-1) t1 None None]> heap in
  let tailNode := fresh (dom heap1) in
  let heap2 := <[tailNode := mkNode "" (VString "") (-1) t2 None None]> heap1 in
  let list := mkList (Some headNode) (Some tailNode) 0 in
  (* list.Head.Next = list.Tail *)
  let heap3 := alter (set_Next (Tail list)) headNode heap2 in
  (* list.Tail.Prev = list.Head *)
  let heap4 := alter (set_Prev (Head list)) tailNode heap3 in
  mkState heap4 list false [].

(** [func Insert(ll *List, key string, value interface{}, ttl int64) (node *Node, err error)];
    [now] is the reading of [time.Now().Unix()]. *)
Definition Insert (key : string) (value : Any) (ttl now : Z) : M (ptr * error) :=
  lock ;;
  with_defer unlock (
    newNode <- alloc (mkNode key value ttl now None None) ;;
    (* newNode.Prev = ll.Head *)
    h <- load_Head ;;
    store_Prev newNode h ;;
    (* newNode.Next = ll.Head.Next *)
    h <- load_Head ;;
    hn <- load_Next h ;;
    store_Next newNode hn ;;
    (* ll.Head.Next = newNode *)
    h <- load_Head ;;
    store_Next h newNode ;;
    (* newNode.Next.Prev = newNode *)
    nn <- load_Next newNode ;;
    store_Prev nn newNode ;;
    add_Size 1 ;;
    ret (newNode, None)).

(** [func RemoveLast(ll *List) (node *Node, err error)] *)
Definition RemoveLast : M (ptr * error) :=
  lock ;;
  with_defer unlock (
    sz <- load_Size ;;
    if sz =? 0 then ret (None, Some EmptyList)
    else
      (* nodeToRemove := ll.Tail.Prev *)
      t <- load_Tail ;;
      nodeToRemove <- load_Prev t ;;
      (* nodeToRemove.Prev.Next = ll.Tail *)
      p <- load_Prev nodeToRemove ;;
      t <- load_Tail ;;
      store_Next p t ;;
      (* ll.Tail.Prev = nodeToRemove.Prev *)
      t <- load_Tail ;;
      p <- load_Prev nodeToRemove ;;
      store_Prev t p ;;
      add_Size (-1) ;;
      ret (nodeToRemove, None)).

(** [func RemoveNode(ll *List, node *Node) (node *Node, err error)] *)
Definition RemoveNode (node : ptr) : M (ptr * error) :=
  lock ;;
  sz <- load_Size ;;
  if sz =? 0 then
    unlock ;;
    ret (None, Some EmptyList)
  else
    sz <- load_Size ;;
    if sz =? 1 then
      unlock ;;
      (* returnNode, _ := RemoveLast(ll) *)
      r <- RemoveLast ;;
      ret (fst r, None)
    else
      unlock ;;
      lock ;;
      with_defer unlock (
        prevNode <- load_Prev node ;;
        nextNode <- load_Next node ;;
        (* prevNode.Next = node.Next *)
        n <- load_Next node ;;
        store_Next prevNode n ;;
        (* nextNode.Prev = node.Prev *)
        p <- load_Prev node ;;
        store_Prev nextNode p ;;
        add_Size (-1) ;;
        ret (node, None)).

(** [func GetLastNode(ll *List) (node *Node, err error)] *)
Definition GetLastNode : M (ptr * error) :=
  lock ;;
  sz <- load_Size ;;
  if sz =? 0 then
    unlock ;;
    ret (None, Some EmptyList)
  else
    unlock ;;
    t <- load_Tail ;;
    nodeToGet <- load_Prev t ;;
    ret (nodeToGet, None).

(** ** Operation sequences *)

Inductive Op : Type :=
  | OpInsert (key : string) (value : Any) (ttl now : Z)
  | OpRemoveLast
  | OpRemoveNode (node : ptr)
  | OpGetLastNode.

Definition exec (op : Op) : M (ptr * error) :=
  match op with
  | OpInsert key value ttl now => Insert key value ttl now
  | OpRemoveLast => RemoveLast
  | OpRemoveNode node => RemoveNode node
  | OpGetLastNode => GetLastNode
  end.

(** The state after a sequence of calls, made one after the other. *)
Definition run (ops : list Op) (s : State) : State :=
  foldl (λ s op, snd (exec op s)) s ops.

(** ** Walking the chain *)

Definition nextOf (h : gmap loc Node) (a : loc) : ptr := h !! a ≫= Next.
Definition prevOf (h : gmap loc Node) (a : loc) : ptr := h !! a ≫= Prev.

(** Follow [link] from [p] until [nil]; [None] when a dangling pointer is
    met or the fuel runs out. *)
Fixpoint walk (link : Node → ptr) (fuel : nat) (h : gmap loc Node) (p : ptr)
  : option (list loc) :=
  match p with
  | None => Some []
  | Some a =>
      match fuel with
      | O => None
      | S fuel' =>
          match h !! a with
          | None => None
          | Some n => cons a <$> walk link fuel' h (link n)
          end
      end
  end.

(** A walk never needs more steps than there are nodes. *)
Definition walk_next (s : State) : option (list loc) :=
  walk Next (size (nodes s)) (nodes s) (Head (ll s)).
Definition walk_prev (s : State) : option (list loc) :=
  walk Prev (size (nodes s)) (nodes s) (Tail (ll s)).

(** The real elements, most recent first: the walk without its two ends. *)
Definition elements (s : State) : list loc :=
  match walk_next s with
  | Some p => removelast (tail p)
  | None => []
  end.

(** The keys met on the walk from head to tail, sentinels included. *)
Definition walk_keys (s : State) : option (list string) :=
  p ← walk_next s; mapM (λ a, Key <$> nodes s !! a) p.

(** A sequence of calls respects the contract of [RemoveNode] when each
    [RemoveNode] is given a real element that is linked at that moment. *)
Definition op_ok (s : State) (op : Op) : bool :=
  match op with
  | OpRemoveNode (Some e) => bool_decide (e ∈ elements s)
  | OpRemoveNode None => false
  | _ => true
  end.

Fixpoint ops_ok (s : State) (ops : list Op) : bool :=
  match ops with
  | [] => true
  | op :: ops' => op_ok s op && ops_ok (snd (exec op s)) ops'
  end.

(** The addresses handed out by the [Insert] calls of a sequence, oldest
    first. *)
Fixpoint inserted (s : State) (ops : list Op) : list loc :=
  match ops with
  | [] => []
  | op :: ops' =>
      match op, fst (exec op s) with
      | OpInsert _ _ _ _, Ret (Some a, _) => a :: inserted (snd (exec op s)) ops'
      | _, _ => inserted (snd (exec op s)) ops'
      end
  end.

(** ** The shape of a well-formed list *)

(** [linked h p]: along the path [p], each node's [Next] is its successor
    and each node's [Prev] is its predecessor. *)
Fixpoint linked (h : gmap loc Node) (p : list loc) : Prop :=
  match p with
  | u :: (v :: _) as p' => nextOf h u = Some v ∧ prevOf h v = Some u ∧ linked h p'
  | _ => True
  end.

(** [dll h hd l tl]: in heap [h] the sentinels [hd] and [tl] enclose exactly
    the nodes [l], all distinct, and the chain ends in [nil] on both sides. *)
Definition dll (h : gmap loc Node) (hd : loc) (l : list loc) (tl : loc) : Prop :=
  NoDup (hd :: l ++ [tl]) ∧
  linked h (hd :: l ++ [tl]) ∧
  prevOf h hd = None ∧ nextOf h tl = None.

(** [chain s l]: the list of [s] holds exactly the real elements [l] between
    its sentinels. *)
Definition chain (s : State) (l : list loc) : Prop :=
  ∃ hd tl,
    Head (ll s) = Some hd ∧ Tail (ll s) = Some tl ∧ dll (nodes s) hd l tl.

(** The caller's data of every node of [h] is the same in [h']. *)
Definition payload_kept (h h' : gmap loc Node) : Prop :=
  ∀ y n, h !! y = Some n →
    ∃ n', h' !! y = Some n' ∧ Key n' = Key n ∧ Value n' = Value n ∧
          TTL n' = TTL n ∧ CreatedAt n' = CreatedAt n.

(** The invariants of the data model: the chain, the count, an idle lock. *)
Definition wf (s : State) (l : list loc) : Prop :=
  chain s l ∧
  Size (ll s) = Z.of_nat (length l) ∧
  Z.of_nat (length l) < 2 ^ 31 ∧
  mux s = false.

(** What every reachable state satisfies: the count is kept modulo 2^32. *)
Definition inv (s : State) (l : list loc) : Prop :=
  chain s l ∧
  Size (ll s) = wrap32 (Z.of_nat (length l)) ∧
  mux s = false.

(** ** The lock discipline, read off a trace *)

Definition is_lock_event (e : Event) : bool :=
  match e with EvLock | EvUnlock => true | _ => false end.

(** A field that the structural operations write after [InitList]. *)
Definition is_shared_access (e : Event) : bool :=
  match e with
  | EvLoad FSize | EvStore FSize => true
  | EvLoad (FPrev _) | EvStore (FPrev _) => true
  | EvLoad (FNext _) | EvStore (FNext _) => true
  | _ => false
  end.

(** One critical section: a lock, no lock operation in between, an unlock. *)
Definition critical_section (tr : list Event) : bool :=
  match tr with
  | EvLock :: rest =>
      match reverse rest with
      | EvUnlock :: body => forallb (λ e, negb (is_lock_event e)) body
      | _ => false
      end
  | _ => false
  end.

(** Every access to a shared field happens while the lock is held. *)
Fixpoint guarded (held : bool) (tr : list Event) : bool :=
  match tr with
  | [] => true
  | EvLock :: tr' => guarded true tr'
  | EvUnlock :: tr' => guarded false tr'
  | e :: tr' => (held || negb (is_shared_access e)) && guarded held tr'
  end.

(** The events a call adds to the trace. *)
Definition events_of {A} (m : M A) (s : State) : list Event :=
  drop (length (trace s)) (trace (snd (m s))).

(** ** The heaps the operations leave behind *)

Definition Insert_nodes (key : string) (value : Any) (ttl now : Z)
    (h : gmap loc Node) (hd x : loc) (hn xn : Node) : gmap loc Node :=
  let a := fresh (dom h) in
  <[x := set_Prev (Some a) xn]>
    (<[hd := set_Next (Some a) hn]>
       (<[a := mkNode key value ttl now (Some hd) (Some x)]> h)).

(** Both removals bypass a node between [p] and [q]. *)
Definition bypass_nodes (h : gmap loc Node) (p q : loc) (pn qn : Node)
  : gmap loc Node :=
  <[q := set_Prev (Some p) qn]> (<[p := set_Next (Some q) pn]> h).

Definition with_trace (s : State) (evs : list Event) : State :=
  mkState (nodes s) (ll s) (mux s) (trace s ++ evs).

Definition Insert_events (a hd x : loc) : list Event :=
  [EvLock; EvAlloc a; EvLoad FHead; EvStore (FPrev a);
   EvLoad FHead; EvLoad (FNext hd); EvStore (FNext a);
   EvLoad FHead; EvStore (FNext hd); EvLoad (FNext a);
   EvStore (FPrev x); EvLoad FSize; EvStore FSize; EvUnlock].

Definition RemoveLast_events (p e tl : loc) : list Event :=
  [EvLock; EvLoad FSize; EvLoad FTail; EvLoad (FPrev tl); EvLoad (FPrev e);
   EvLoad FTail; EvStore (FNext p); EvLoad FTail; EvLoad (FPrev e);
   EvStore (FPrev tl); EvLoad FSize; EvStore FSize; EvUnlock].

Definition RemoveNode_events (p e q : loc) : list Event :=
  [EvLock; EvLoad FSize; EvLoad FSize; EvUnlock; EvLock;
   EvLoad (FPrev e); EvLoad (FNext e); EvLoad (FNext e); EvStore (FNext p);
   EvLoad (FPrev e); EvStore (FPrev q); EvLoad FSize; EvStore FSize; EvUnlock].

Definition GetLastNode_events (tl : loc) : list Event :=
  [EvLock; EvLoad FSize; EvUnlock; EvLoad FTail; EvLoad (FPrev tl)].

(** What a removal of [e] from between [l1] and [l2] leaves behind: [p] and
    [q] are the former neighbours of [e]. *)
Definition unlinked (s s' : State) (l1 : list loc) (e : loc) (l2 : list loc)
    (p q : loc) : Prop :=
  chain s' (l1 ++ l2) ∧
  ll s' = mkList (Head (ll s)) (Tail (ll s)) (wrap32 (Size (ll s) + -1)) ∧
  mux s' = false ∧
  payload_kept (nodes s) (nodes s') ∧
  nodes s' !! e = nodes s !! e ∧
  prevOf (nodes s) e = Some p ∧ nextOf (nodes s) e = Some q ∧
  nextOf (nodes s') p = Some q ∧ prevOf (nodes s') q = Some p ∧
  (∃ hd, Head (ll s) = Some hd ∧ last (hd :: l1) = Some p) ∧
  (∃ tl, Tail (ll s) = Some tl ∧ head (l2 ++ [tl]) = Some q).

(** ** The scenario of the specification

    [InitList()], [Insert("a", 1, 60)], [Insert("b", 2, 60)] on an empty
    heap: the sentinels are at addresses 1 and 2, "a" at 3 and "b" at 4. *)
Definition scenario0 : State := InitList 100 100 ∅.
Definition scenario1 : State := snd (Insert "a" (VInt 1) 60 101 scenario0).
Definition scenario2 : State := snd (Insert "b" (VInt 2) 60 102 scenario1).

(** ** Histories *)

(** [hinv s l ins]: [inv], and the chain lists its elements from the most
    recently inserted to the least recently inserted; [ins] are the
    addresses inserted so far, oldest first. *)
Definition hinv (s : State) (l ins : list loc) : Prop :=
  inv s l ∧ l `sublist_of` reverse ins ∧ NoDup ins ∧
  ∀ a, a ∈ ins → is_Some (nodes s !! a).

(** The arguments of one call of [Insert]. *)
Record InsertCall : Type := mkCall {
  ic_key : string;
  ic_value : Any;
  ic_ttl : Z;
  ic_now : Z
}.

Definition insert_op (c : InsertCall) : Op :=
  OpInsert (ic_key c) (ic_value c) (ic_ttl c) (ic_now c).

(** The nodes of the path [p] carry the keys [ks], in this order. *)
Definition keyed (h : gmap loc Node) (p : list loc) (ks : list string) : Prop :=
  Forall2 (λ a k, Key <$> h !! a = Some k) p ks.

(** ** Long sequences of insertions *)

(** 2^31 calls of [Insert] with one and the same key. *)
Definition many_inserts : list Op :=
  replicate (Z.to_nat (2 ^ 31)) (OpInsert "k" VNil 0 0).

(** [n] calls of [Insert] with the keys "0", "1", ..., all different. *)
Definition distinct_calls (n : nat) : list InsertCall :=
  (λ i : nat, mkCall (pretty i) VNil 0 0) <$> seq 0 n.

(** ** What holds of every run, whatever the heap *)

(** [lock_triple b m bR bP]: started with the lock in state [b], [m] never
    blocks; it leaves the lock in state [bR] when it returns and in state
    [bP] when it panics. *)
Definition lock_triple {A} (b : bool) (m : M A) (bR bP : bool) : Prop :=
  ∀ s, mux s = b →
    match m s with
    | (Ret _, s') => mux s' = bR
    | (Panic, s') => mux s' = bP
    | (Blocked, _) => False
    end.

(** [always R m]: every run of [m] takes a state to an [R]-related one. *)
Definition always {A} (R : State → State → Prop) (m : M A) : Prop :=
  ∀ s, R s (snd (m s)).

(** The caller's data and the two sentinel pointers stay as they are, and
    no node disappears. *)
Definition frame_ok (s s' : State) : Prop :=
  payload_kept (nodes s) (nodes s') ∧
  Head (ll s') = Head (ll s) ∧ Tail (ll s') = Tail (ll s).

(** The scenario with a third element: "c" at address 5. *)
Definition scenario3 : State := snd (Insert "c" (VInt 3) 60 103 scenario2).

(** What the calls of a sequence return, in order. *)
Fixpoint returned (s : State) (ops : list Op) : list (Outcome (ptr * error)) :=
  match ops with
  | [] => []
  | op :: ops' => fst (exec op s) :: returned (snd (exec op s)) ops'
  end.

(** The state of the lock after the events [tr]. *)
Fixpoint held_after (held : bool) (tr : list Event) : bool :=
  match tr with
  | [] => held
  | EvLock :: tr' => held_after true tr'
  | EvUnlock :: tr' => held_after false tr'
  | _ :: tr' => held_after held tr'
  end.

(** Every store to a field happens while the lock is held. *)
Fixpoint writes_guarded (held : bool) (tr : list Event) : bool :=
  match tr with
  | [] => true
  | EvLock :: tr' => writes_guarded true tr'
  | EvUnlock :: tr' => writes_guarded false tr'
  | EvStore _ :: tr' => held && writes_guarded held tr'
  | _ :: tr' => writes_guarded held tr'
  end.

(** [write_triple b m]: started with the lock in state [b], [m] only adds
    events to the trace, stores only under the lock, and the lock ends in
    the state its events say. *)
Definition write_triple {A} (b : bool) (m : M A) : Prop :=
  ∀ s, mux s = b →
    ∃ evs, trace (snd (m s)) = trace s ++ evs ∧
           writes_guarded b evs = true ∧
           held_after b evs = mux (snd (m s)).

(** ** Symbolic execution of the operations *)

Ltac go_unfold :=
  unfold Insert, RemoveLast, RemoveNode, GetLastNode, bind, with_defer, lock, unlock,
    alloc, load_Head, load_Tail, load_Size, load_Next, load_Prev, store_Prev,
    store_Next, add_Size, ret, emit, with_trace.

Ltac go_step :=
  first [ rewrite insert_insert_eq
        | rewrite lookup_insert_eq
        | rewrite lookup_insert_ne by congruence
        | match goal with H : ?x = _ |- context [?x] => rewrite H end ];
  cbn -[wrap32 fresh dom].

Ltac go := go_unfold; cbn -[wrap32 fresh dom]; repeat go_step;
  rewrite <- ?app_assoc; try reflexivity.

Lemma fresh_lookup (h : gmap loc Node) : h !! fresh (dom h) = None.
Proof. apply not_elem_of_dom, is_fresh. Qed.

Lemma fresh_ne (h : gmap loc Node) a n : h !! a = Some n → fresh (dom h) ≠ a.
Proof. intros H E. rewrite <- E, fresh_lookup in H. discriminate. Qed.

Lemma Insert_run key value ttl now s hd hn x xn :
  mux s = false → Head (ll s) = Some hd →
  nodes s !! hd = Some hn → Next hn = Some x → nodes s !! x = Some xn → hd ≠ x →
  Insert key value ttl now s =
    (Ret (Some (fresh (dom (nodes s))), None),
     mkState (Insert_nodes key value ttl now (nodes s) hd x hn xn)
             (mkList (Head (ll s)) (Tail (ll s)) (wrap32 (Size (ll s) + 1)))
             false
             (trace s ++ Insert_events (fresh (dom (nodes s))) hd x)).
Proof.
  intros Hm Hh Hhd Hn Hx Hne. unfold Insert_nodes, Insert_events.
  assert (Ha1 : fresh (dom (nodes s)) ≠ hd) by (eapply fresh_ne; eauto).
  assert (Ha2 : fresh (dom (nodes s)) ≠ x) by (eapply fresh_ne; eauto).
  remember (fresh (dom (nodes s))) as a eqn:Ea. symmetry in Ea.
  go.
Qed.

Lemma RemoveLast_run s tl tn e en p pn :
  mux s = false → (Size (ll s) =? 0) = false → Tail (ll s) = Some tl →
  nodes s !! tl = Some tn → Prev tn = Some e →
  nodes s !! e = Some en → Prev en = Some p →
  nodes s !! p = Some pn → p ≠ tl → e ≠ p →
  RemoveLast s =
    (Ret (Some e, None),
     mkState (bypass_nodes (nodes s) p tl pn tn)
             (mkList (Head (ll s)) (Tail (ll s)) (wrap32 (Size (ll s) + -1)))
             false
             (trace s ++ RemoveLast_events p e tl)).
Proof.
  intros Hm Hz Ht Htl Hp Hen Hpe Hpn Hne1 Hne2.
  unfold bypass_nodes, RemoveLast_events. go.
Qed.

Lemma RemoveLast_empty s :
  mux s = false → Size (ll s) = 0 →
  RemoveLast s =
    (Ret (None, Some EmptyList), with_trace s [EvLock; EvLoad FSize; EvUnlock]).
Proof. intros Hm Hz. go. Qed.

Lemma RemoveNode_empty node s :
  mux s = false → Size (ll s) = 0 →
  RemoveNode node s =
    (Ret (None, Some EmptyList), with_trace s [EvLock; EvLoad FSize; EvUnlock]).
Proof. intros Hm Hz. go. Qed.

Lemma GetLastNode_empty s :
  mux s = false → Size (ll s) = 0 →
  GetLastNode s =
    (Ret (None, Some EmptyList), with_trace s [EvLock; EvLoad FSize; EvUnlock]).
Proof. intros Hm Hz. go. Qed.

Lemma GetLastNode_run s tl tn :
  mux s = false → (Size (ll s) =? 0) = false → Tail (ll s) = Some tl →
  nodes s !! tl = Some tn →
  GetLastNode s = (Ret (Prev tn, None), with_trace s (GetLastNode_events tl)).
Proof. intros Hm Hz Ht Htl. unfold GetLastNode_events. go. Qed.

Lemma RemoveNode_run s e en p pn q qn :
  mux s = false → (Size (ll s) =? 0) = false → (Size (ll s) =? 1) = false →
  nodes s !! e = Some en → Prev en = Some p → Next en = Some q →
  nodes s !! p = Some pn → nodes s !! q = Some qn → p ≠ q → e ≠ p →
  RemoveNode (Some e) s =
    (Ret (Some e, None),
     mkState (bypass_nodes (nodes s) p q pn qn)
             (mkList (Head (ll s)) (Tail (ll s)) (wrap32 (Size (ll s) + -1)))
             false
             (trace s ++ RemoveNode_events p e q)).
Proof.
  intros Hm Hz H1 Hen Hp Hq Hpn Hqn Hne1 Hne2.
  unfold bypass_nodes, RemoveNode_events. go.
Qed.

(** With one element left, [RemoveNode] hands over to [RemoveLast] and
    drops its error. *)
Lemma RemoveNode_single node s :
  mux s = false → Size (ll s) = 1 →
  RemoveNode node s =
    match RemoveLast (with_trace s [EvLock; EvLoad FSize; EvLoad FSize; EvUnlock]) with
    | (Ret r, s') => (Ret (fst r, None), s')
    | (Panic, s') => (Panic, s')
    | (Blocked, s') => (Blocked, s')
    end.
Proof.
  intros Hm H1. unfold RemoveNode. remember RemoveLast as RL eqn:E. clear E.
  go.
Qed.
(** ** Links in an updated heap *)

Lemma nextOf_insert h k n y :
  nextOf (<[k:=n]> h) y = if decide (k = y) then Next n else nextOf h y.
Proof. unfold nextOf. rewrite lookup_insert. by case_decide. Qed.

Lemma prevOf_insert h k n y :
  prevOf (<[k:=n]> h) y = if decide (k = y) then Prev n else prevOf h y.
Proof. unfold prevOf. rewrite lookup_insert. by case_decide. Qed.

Lemma nextOf_Some h a b : nextOf h a = Some b → ∃ n, h !! a = Some n ∧ Next n = Some b.
Proof. unfold nextOf. destruct (h !! a) as [n|]; [eauto | done]. Qed.

Lemma prevOf_Some h a b : prevOf h a = Some b → ∃ n, h !! a = Some n ∧ Prev n = Some b.
Proof. unfold prevOf. destruct (h !! a) as [n|]; [eauto | done]. Qed.

Lemma nextOf_lookup h a n : h !! a = Some n → nextOf h a = Next n.
Proof. unfold nextOf. by intros ->. Qed.

Lemma prevOf_lookup h a n : h !! a = Some n → prevOf h a = Prev n.
Proof. unfold prevOf. by intros ->. Qed.

(** ** Paths *)

Lemma linked_app h p1 u p2 :
  linked h (p1 ++ u :: p2) ↔ linked h (p1 ++ [u]) ∧ linked h (u :: p2).
Proof.
  induction p1 as [|w p1 IH]; [simpl; tauto |].
  destruct p1 as [|w' p1]; [simpl in *; tauto |].
  change (linked h ((w :: w' :: p1) ++ u :: p2))
    with (nextOf h w = Some w' ∧ prevOf h w' = Some w ∧ linked h ((w' :: p1) ++ u :: p2)).
  change (linked h ((w :: w' :: p1) ++ [u]))
    with (nextOf h w = Some w' ∧ prevOf h w' = Some w ∧ linked h ((w' :: p1) ++ [u])).
  tauto.
Qed.

Lemma linked_frame h h' p :
  linked h p →
  (∀ y, y ∈ removelast p → nextOf h' y = nextOf h y) →
  (∀ y, y ∈ tail p → prevOf h' y = prevOf h y) →
  linked h' p.
Proof.
  induction p as [|u p IH]; [done |].
  destruct p as [|v p]; [done |].
  intros (Hn & Hp & Hl) Hnext Hprev.
  split_and!.
  - rewrite Hnext; [done | left].
  - rewrite Hprev; [done | left].
  - apply IH; [done | |].
    + intros y Hy. apply Hnext. by right.
    + intros y Hy. apply Hprev. simpl in *. by right.
Qed.

Lemma linked_alloc h p y :
  linked h p → (2 ≤ length p)%nat → y ∈ p → is_Some (h !! y).
Proof.
  induction p as [|u p IH]; [by intros _ _ ?%elem_of_nil |].
  destruct p as [|v p]; [simpl; lia |].
  intros (Hn & Hp & Hl) _ Hy.
  apply elem_of_cons in Hy as [-> | Hy].
  - apply nextOf_Some in Hn as (? & ? & _). eauto.
  - destruct p as [|w p].
    + apply list_elem_of_singleton in Hy as ->.
      apply prevOf_Some in Hp as (? & ? & _). eauto.
    + apply IH; [done | simpl; lia | done].
Qed.

Lemma walk_nil link fuel h : walk link fuel h None = Some [].
Proof. by destruct fuel. Qed.

Lemma walk_next_linked h fuel a p z :
  linked h (a :: p ++ [z]) → nextOf h z = None →
  (length p + 2 ≤ fuel)%nat →
  walk Next fuel h (Some a) = Some (a :: p ++ [z]).
Proof.
  revert a fuel. induction p as [|b p IH]; intros a fuel Hl Hz Hf.
  - destruct Hl as (Hn & Hp & _).
    apply nextOf_Some in Hn as (n & Ha & Hn).
    apply prevOf_Some in Hp as (m & Hzl & _).
    destruct fuel as [|[|fuel]]; [simpl in Hf; lia.. |].
    simpl. rewrite Ha, Hn. simpl. rewrite Hzl.
    unfold nextOf in Hz. rewrite Hzl in Hz. simpl in Hz. rewrite Hz, walk_nil. done.
  - destruct Hl as (Hn & Hp & Hl).
    apply nextOf_Some in Hn as (n & Ha & Hn).
    destruct fuel as [|fuel]; [simpl in Hf; lia |].
    simpl. rewrite Ha, Hn.
    rewrite (IH b fuel); [done | done | done | simpl in Hf; lia].
Qed.

Lemma linked_snoc h p u v :
  linked h (p ++ [u; v]) ↔ linked h (p ++ [u]) ∧ nextOf h u = Some v ∧ prevOf h v = Some u.
Proof. rewrite linked_app. simpl. tauto. Qed.

Lemma walk_prev_linked h fuel a p z :
  linked h (a :: p ++ [z]) → prevOf h a = None →
  (length p + 2 ≤ fuel)%nat →
  walk Prev fuel h (Some z) = Some (z :: reverse p ++ [a]).
Proof.
  revert z fuel. induction p as [|b p IH] using rev_ind; intros z fuel Hl Ha Hf.
  - destruct Hl as (Hn & Hp & _).
    apply nextOf_Some in Hn as (n & Hal & _).
    apply prevOf_Some in Hp as (m & Hz & Hp).
    destruct fuel as [|[|fuel]]; [simpl in Hf; lia.. |].
    simpl. rewrite Hz, Hp. simpl. rewrite Hal.
    unfold prevOf in Ha. rewrite Hal in Ha. simpl in Ha. rewrite Ha, walk_nil. done.
  - replace (a :: (p ++ [b]) ++ [z]) with ((a :: p) ++ [b; z]) in Hl
      by (by rewrite <- app_assoc).
    apply linked_snoc in Hl as (Hl & Hn & Hp).
    apply prevOf_Some in Hp as (m & Hz & Hp).
    rewrite length_app in Hf. simpl in Hf.
    destruct fuel as [|fuel]; [lia |].
    simpl. rewrite Hz, Hp. rewrite reverse_snoc. simpl.
    rewrite (IH b fuel); [done | done | done | lia].
Qed.

Lemma NoDup_alloc_length (h : gmap loc Node) (p : list loc) :
  NoDup p → (∀ y, y ∈ p → is_Some (h !! y)) → (length p ≤ size h)%nat.
Proof.
  intros Hnd Hin.
  rewrite <- size_dom. unfold size, set_size. simpl.
  apply submseteq_length, NoDup_submseteq; [done |].
  intros y Hy. apply elem_of_elements, elem_of_dom. auto.
Qed.

Lemma elem_of_removelast (p : list loc) y : y ∈ removelast p → y ∈ p.
Proof.
  induction p as [|u p IH]; [done |].
  destruct p as [|v p]; [by intros ?%elem_of_nil |].
  change (removelast (u :: v :: p)) with (u :: removelast (v :: p)).
  intros [-> | Hy]%elem_of_cons; [left | right; auto].
Qed.

Lemma snoc_is_cons (l : list loc) z : ∃ x p, l ++ [z] = x :: p.
Proof. destruct l; simpl; eauto. Qed.

Lemma cons_is_snoc (a : loc) l : ∃ p z, a :: l = p ++ [z].
Proof.
  revert a. induction l as [|b l IH]; intros a.
  - by exists [], a.
  - destruct (IH b) as (p & z & E). exists (a :: p), z. by rewrite E.
Qed.

Ltac links :=
  rewrite ?nextOf_insert, ?prevOf_insert; repeat case_decide; subst; simpl;
  try done; try congruence.

(** ** The chain after an insertion *)

Lemma dll_Insert key value ttl now h hd l tl :
  dll h hd l tl →
  ∃ hn x xn,
    h !! hd = Some hn ∧ Next hn = Some x ∧ h !! x = Some xn ∧ hd ≠ x ∧
    head (l ++ [tl]) = Some x ∧
    dll (Insert_nodes key value ttl now h hd x hn xn) hd (fresh (dom h) :: l) tl ∧
    payload_kept h (Insert_nodes key value ttl now h hd x hn xn) ∧
    Insert_nodes key value ttl now h hd x hn xn !! fresh (dom h) =
      Some (mkNode key value ttl now (Some hd) (Some x)).
Proof.
  intros (Hnd & Hl & Hhd & Htl).
  destruct (snoc_is_cons l tl) as (x & p2 & E).
  assert (Htlin : tl ∈ x :: p2) by (rewrite <- E; set_solver).
  assert (Hall : ∀ y, y ∈ hd :: x :: p2 → fresh (dom h) ≠ y).
  { intros y Hy. rewrite <- E in Hy.
    destruct (linked_alloc h _ y Hl) as [n Hn]; [simpl; rewrite length_app; simpl; lia | done |].
    by eapply fresh_ne. }
  assert (E' : ∀ a, (a :: l) ++ [tl] = a :: x :: p2) by (intros; simpl; by rewrite E).
  rewrite E in *. clear E.
  destruct Hl as (Hn & Hp & Hl).
  apply NoDup_cons in Hnd as [Hhdnot Hnd].
  pose proof Hnd as [Hxnot Hnd2]%NoDup_cons.
  destruct (nextOf_Some _ _ _ Hn) as (hn & Hhn & Hnx).
  destruct (prevOf_Some _ _ _ Hp) as (xn & Hxn & Hpx).
  assert (hd ≠ x) by set_solver.
  exists hn, x, xn. split_and!; try done.
  - unfold dll, Insert_nodes. rewrite E'. remember (fresh (dom h)) as a eqn:Ea. clear Ea.
    assert (a ≠ hd) by (apply Hall; set_solver).
    assert (a ≠ x) by (apply Hall; set_solver).
    split_and!.
    + apply NoDup_cons. split; [set_solver |].
      apply NoDup_cons. split; [| done].
      intros Hin. by apply (Hall a); [right |].
    + change (linked ?h' (hd :: a :: x :: p2))
        with (nextOf h' hd = Some a ∧ prevOf h' a = Some hd ∧
              nextOf h' a = Some x ∧ prevOf h' x = Some a ∧ linked h' (x :: p2)).
      split_and!; [links.. |].
      eapply linked_frame; [done | |].
      * intros y Hy%elem_of_removelast.
        assert (a ≠ y) by (apply Hall; by right).
        assert (hd ≠ y) by set_solver.
        links. by rewrite (nextOf_lookup _ _ _ Hxn).
      * simpl. intros y Hy.
        assert (a ≠ y) by (apply Hall; set_solver).
        assert (hd ≠ y) by set_solver.
        assert (x ≠ y) by set_solver.
        links.
    + links. by rewrite <- (prevOf_lookup _ _ _ Hhn).
    + assert (a ≠ tl) by (by apply Hall; right).
      assert (hd ≠ tl) by set_solver.
      links. by rewrite <- (nextOf_lookup _ _ _ Hxn).
  - intros y n Hy. unfold Insert_nodes.
    assert (fresh (dom h) ≠ y) by (by eapply fresh_ne).
    rewrite !lookup_insert. repeat case_decide; subst; try done.
    + rewrite Hxn in Hy. injection Hy as <-. eauto 10.
    + rewrite Hhn in Hy. injection Hy as <-. eauto 10.
    + eauto 10.
  - unfold Insert_nodes.
    assert (fresh (dom h) ≠ hd) by (apply Hall; set_solver).
    assert (fresh (dom h) ≠ x) by (apply Hall; set_solver).
    rewrite !lookup_insert_ne by done. apply lookup_insert_eq.
Qed.

(** ** The chain after bypassing an element *)

Lemma dll_bypass h hd l1 e l2 tl :
  dll h hd (l1 ++ e :: l2) tl →
  ∃ p pn q qn en,
    h !! e = Some en ∧ Prev en = Some p ∧ Next en = Some q ∧
    h !! p = Some pn ∧ h !! q = Some qn ∧ Next pn = Some e ∧ Prev qn = Some e ∧
    p ≠ q ∧ e ≠ p ∧ e ≠ q ∧ p ≠ tl ∧ q ≠ hd ∧
    last (hd :: l1) = Some p ∧ head (l2 ++ [tl]) = Some q ∧
    dll (bypass_nodes h p q pn qn) hd (l1 ++ l2) tl ∧
    payload_kept h (bypass_nodes h p q pn qn) ∧
    bypass_nodes h p q pn qn !! e = Some en.
Proof.
  intros (Hnd & Hl & Hhd & Htl).
  destruct (cons_is_snoc hd l1) as (p1 & p & E1).
  destruct (snoc_is_cons l2 tl) as (q & p2 & E2).
  assert (Hhdin : hd ∈ p1 ++ [p]) by (rewrite <- E1; set_solver).
  assert (Htlin : tl ∈ q :: p2) by (rewrite <- E2; set_solver).
  assert (Ep : hd :: (l1 ++ e :: l2) ++ [tl] = p1 ++ p :: e :: q :: p2).
  { rewrite <- app_assoc. simpl. rewrite E2.
    change (hd :: l1 ++ e :: q :: p2) with ((hd :: l1) ++ e :: q :: p2).
    rewrite E1, <- app_assoc. done. }
  assert (Ep' : hd :: (l1 ++ l2) ++ [tl] = p1 ++ p :: q :: p2).
  { rewrite <- app_assoc, E2.
    change (hd :: l1 ++ q :: p2) with ((hd :: l1) ++ q :: p2).
    rewrite E1, <- app_assoc. done. }
  rewrite Ep in Hnd, Hl.
  apply linked_app in Hl as (Hl1 & Hpe & Hep & Heq & Hqe & Hl2).
  apply NoDup_app in Hnd as (Hnd1 & Hdisj & Hnd2).
  apply NoDup_cons in Hnd2 as (Hp4 & Hnd2).
  apply NoDup_cons in Hnd2 as (He4 & Hnd2).
  pose proof Hnd2 as (Hq4 & Hnd3)%NoDup_cons.
  destruct (nextOf_Some _ _ _ Hpe) as (pn & Hpn & Hpnx).
  destruct (prevOf_Some _ _ _ Hep) as (en & Hen & Henp).
  destruct (nextOf_Some _ _ _ Heq) as (en' & Hen' & Hennx).
  rewrite Hen in Hen'. injection Hen' as <-.
  destruct (prevOf_Some _ _ _ Hqe) as (qn & Hqn & Hqnp).
  assert (p ≠ q) by set_solver.
  assert (e ≠ p) by set_solver.
  assert (e ≠ q) by set_solver.
  assert (p ≠ tl) by set_solver.
  assert (q ≠ hd) by set_solver.
  exists p, pn, q, qn, en. split_and!; try done.
  - by rewrite E1, last_snoc.
  - by rewrite E2.
  - unfold dll. rewrite Ep'. unfold bypass_nodes. split_and!.
    + apply NoDup_app. split_and!; [done | set_solver |].
      apply NoDup_cons. split; [set_solver | done].
    + apply linked_app. split.
      * eapply linked_frame; [done | |].
        -- rewrite removelast_last. intros y Hy.
           assert (q ≠ y) by set_solver. assert (p ≠ y) by set_solver. links.
        -- intros y Hy.
           assert (Hy' : y ∈ p1 ++ [p]) by (destruct p1; set_solver).
           assert (q ≠ y) by set_solver.
           links. by rewrite (prevOf_lookup _ _ _ Hpn).
      * change (linked ?h' (p :: q :: p2))
          with (nextOf h' p = Some q ∧ prevOf h' q = Some p ∧ linked h' (q :: p2)).
        split_and!; [links.. |].
        eapply linked_frame; [done | |].
        -- intros y Hy%elem_of_removelast.
           assert (p ≠ y) by set_solver.
           links. by rewrite (nextOf_lookup _ _ _ Hqn).
        -- simpl. intros y Hy.
           assert (p ≠ y) by set_solver. assert (q ≠ y) by set_solver. links.
    + links. by rewrite <- (prevOf_lookup _ _ _ Hpn).
    + assert (p ≠ tl) by set_solver.
      links. by rewrite <- (nextOf_lookup _ _ _ Hqn).
  - intros y n Hy. unfold bypass_nodes.
    rewrite !lookup_insert. repeat case_decide; subst; try done.
    + rewrite Hqn in Hy. injection Hy as <-. eauto 10.
    + rewrite Hpn in Hy. injection Hy as <-. eauto 10.
    + eauto 10.
  - unfold bypass_nodes. by rewrite !lookup_insert_ne.
Qed.
(** ** The operations on a chain *)

Lemma Insert_chain key value ttl now s l :
  chain s l → mux s = false →
  ∃ s' hd x,
    Insert key value ttl now s = (Ret (Some (fresh (dom (nodes s))), None), s') ∧
    chain s' (fresh (dom (nodes s)) :: l) ∧
    ll s' = mkList (Head (ll s)) (Tail (ll s)) (wrap32 (Size (ll s) + 1)) ∧
    mux s' = false ∧
    payload_kept (nodes s) (nodes s') ∧
    nodes s' !! fresh (dom (nodes s)) = Some (mkNode key value ttl now (Some hd) (Some x)) ∧
    Head (ll s) = Some hd ∧ nodes s !! fresh (dom (nodes s)) = None ∧
    trace s' = trace s ++ Insert_events (fresh (dom (nodes s))) hd x.
Proof.
  intros (hd & tl & Hh & Ht & Hd) Hm.
  destruct (dll_Insert key value ttl now _ _ _ _ Hd)
    as (hn & x & xn & Hhn & Hnx & Hxn & Hne & _ & Hd' & Hpay & Hnew).
  eexists _, hd, x. split; [by eapply Insert_run |].
  simpl. split_and!; try done.
  - exists hd, tl. simpl. done.
  - apply fresh_lookup.
Qed.

Lemma remove_chain s l1 e l2 :
  chain s (l1 ++ e :: l2) →
  ∃ hd tl p pn q qn en,
    Head (ll s) = Some hd ∧ Tail (ll s) = Some tl ∧
    nodes s !! e = Some en ∧ Prev en = Some p ∧ Next en = Some q ∧
    nodes s !! p = Some pn ∧ nodes s !! q = Some qn ∧
    Next pn = Some e ∧ Prev qn = Some e ∧
    p ≠ q ∧ e ≠ p ∧ e ≠ q ∧ p ≠ tl ∧ q ≠ hd ∧
    last (hd :: l1) = Some p ∧ head (l2 ++ [tl]) = Some q ∧
    ∀ tr, unlinked s
      (mkState (bypass_nodes (nodes s) p q pn qn)
               (mkList (Head (ll s)) (Tail (ll s)) (wrap32 (Size (ll s) + -1)))
               false tr)
      l1 e l2 p q.
Proof.
  intros (hd & tl & Hh & Ht & Hd).
  destruct (dll_bypass _ _ _ _ _ _ Hd)
    as (p & pn & q & qn & en & Hen & Hp & Hq & Hpn & Hqn & Hpe & Hqe & ? & ? & ? & ? & ?
        & Hlast & Hhead & Hd' & Hpay & Hkeep).
  exists hd, tl, p, pn, q, qn, en. split_and!; try done.
  intros tr. unfold unlinked. simpl. split_and!; try done.
  - exists hd, tl. simpl. done.
  - by rewrite Hkeep.
  - by rewrite (prevOf_lookup _ _ _ Hen).
  - by rewrite (nextOf_lookup _ _ _ Hen).
  - unfold bypass_nodes. links.
  - unfold bypass_nodes. links.
  - eauto.
  - eauto.
Qed.

Lemma RemoveLast_chain s l e :
  chain s (l ++ [e]) → mux s = false → Size (ll s) ≠ 0 →
  ∃ s' p tl,
    RemoveLast s = (Ret (Some e, None), s') ∧
    unlinked s s' l e [] p tl ∧
    trace s' = trace s ++ RemoveLast_events p e tl.
Proof.
  intros Hc Hm Hz.
  destruct (remove_chain _ _ _ _ Hc)
    as (hd & tl & p & pn & q & qn & en & Hh & Ht & Hen & Hp & Hq & Hpn & Hqn & Hpe & Hqe
        & ? & ? & ? & ? & ? & Hlast & Hhead & Hun).
  simpl in Hhead. injection Hhead as <-.
  eexists _, p, tl. split; [| split; [apply Hun |]].
  - eapply RemoveLast_run; try done. by apply Z.eqb_neq.
  - done.
Qed.

Lemma RemoveNode_chain s l1 e l2 :
  chain s (l1 ++ e :: l2) → mux s = false → Size (ll s) ≠ 0 → Size (ll s) ≠ 1 →
  ∃ s' p q,
    RemoveNode (Some e) s = (Ret (Some e, None), s') ∧
    unlinked s s' l1 e l2 p q ∧
    trace s' = trace s ++ RemoveNode_events p e q.
Proof.
  intros Hc Hm Hz H1.
  destruct (remove_chain _ _ _ _ Hc)
    as (hd & tl & p & pn & q & qn & en & Hh & Ht & Hen & Hp & Hq & Hpn & Hqn & Hpe & Hqe
        & ? & ? & ? & ? & ? & Hlast & Hhead & Hun).
  eexists _, p, q. split; [| split; [apply Hun |]].
  - eapply RemoveNode_run; try done; by apply Z.eqb_neq.
  - done.
Qed.

Lemma unlinked_trace s s' l1 e l2 p q evs :
  unlinked s s' l1 e l2 p q → unlinked (with_trace s evs) s' l1 e l2 p q.
Proof. done. Qed.

Lemma chain_trace s l evs : chain s l → chain (with_trace s evs) l.
Proof. done. Qed.

Lemma RemoveNode_single_chain node s l e :
  chain s (l ++ [e]) → mux s = false → Size (ll s) = 1 →
  ∃ s' p tl,
    RemoveNode node s = (Ret (Some e, None), s') ∧
    unlinked s s' l e [] p tl ∧
    trace s' = trace s ++ [EvLock; EvLoad FSize; EvLoad FSize; EvUnlock]
                       ++ RemoveLast_events p e tl ∧
    nodes s' = nodes (snd (RemoveLast s)) ∧ ll s' = ll (snd (RemoveLast s)) ∧
    fst (RemoveLast s) = Ret (Some e, None).
Proof.
  intros Hc Hm H1.
  destruct (remove_chain _ _ _ _ Hc)
    as (hd & tl & p & pn & q & qn & en & Hh & Ht & Hen & Hp & Hq & Hpn & Hqn & Hpe & Hqe
        & ? & ? & ? & ? & ? & Hlast & Hhead & Hun).
  simpl in Hhead. injection Hhead as <-.
  assert (Hz : (Size (ll s) =? 0) = false) by (apply Z.eqb_neq; lia).
  rewrite RemoveNode_single by done.
  rewrite (RemoveLast_run s tl qn e en p pn) by done.
  rewrite (RemoveLast_run (with_trace s _) tl qn e en p pn) by done.
  eexists _, p, tl. split; [reflexivity |]. split; [apply Hun |].
  simpl. split_and!; try done. by rewrite <- app_assoc.
Qed.

Lemma GetLastNode_chain s l e :
  chain s (l ++ [e]) → mux s = false → Size (ll s) ≠ 0 →
  ∃ tl, Tail (ll s) = Some tl ∧
    GetLastNode s = (Ret (Some e, None), with_trace s (GetLastNode_events tl)).
Proof.
  intros Hc Hm Hz.
  destruct (remove_chain _ _ _ _ Hc)
    as (hd & tl & p & pn & q & qn & en & Hh & Ht & Hen & Hp & Hq & Hpn & Hqn & Hpe & Hqe
        & ? & ? & ? & ? & ? & Hlast & Hhead & Hun).
  simpl in Hhead. injection Hhead as <-.
  exists tl. split; [done |].
  erewrite GetLastNode_run; try done; [by rewrite Hqe | by apply Z.eqb_neq].
Qed.
(** ** The fresh list *)

Lemma InitList_nodes t1 t2 heap :
  let s := InitList t1 t2 heap in
  let hd := fresh (dom heap) in
  let tl := fresh (dom (<[hd := mkNode "" (VString "") (-1) t1 None None]> heap)) in
  hd ≠ tl ∧
  ll s = mkList (Some hd) (Some tl) 0 ∧
  nodes s !! hd = Some (mkNode "" (VString "") (-1) t1 None (Some tl)) ∧
  nodes s !! tl = Some (mkNode "" (VString "") (-1) t2 (Some hd) None) ∧
  mux s = false ∧ trace s = [] ∧
  (∀ y, y ≠ hd → y ≠ tl → nodes s !! y = heap !! y).
Proof.
  intros s hd tl.
  assert (Hne : hd ≠ tl).
  { intros E. pose proof (fresh_lookup (<[hd := mkNode "" (VString "") (-1) t1 None None]> heap)) as Hf.
    fold tl in Hf. rewrite <- E, lookup_insert_eq in Hf. done. }
  unfold s, InitList. fold hd. fold tl. simpl. split_and!; try done.
  - rewrite lookup_alter_ne, lookup_alter_eq, lookup_insert_ne, lookup_insert_eq by done. done.
  - rewrite lookup_alter_eq, lookup_alter_ne, lookup_insert_eq by done. done.
  - intros y H1 H2. by rewrite !lookup_alter_ne, !lookup_insert_ne.
Qed.

Lemma InitList_chain t1 t2 heap : chain (InitList t1 t2 heap) [].
Proof.
  destruct (InitList_nodes t1 t2 heap) as (Hne & Hll & Hhd & Htl & _).
  remember (InitList t1 t2 heap) as s eqn:Es. clear Es.
  eexists _, _. rewrite Hll. split; [reflexivity |]. split; [reflexivity |].
  unfold dll. split_and!.
  - apply NoDup_cons. split; [set_solver | apply NoDup_singleton].
  - split_and!; [| | done].
    + by rewrite (nextOf_lookup _ _ _ Hhd).
    + by rewrite (prevOf_lookup _ _ _ Htl).
  - by rewrite (prevOf_lookup _ _ _ Hhd).
  - by rewrite (nextOf_lookup _ _ _ Htl).
Qed.

(** C7: [InitList] is total and returns a list whose two sentinels carry
    TTL -1 and empty key and value, with head.next = tail, tail.previous =
    head, the outer links nil, and size 0. *)
Theorem InitList_sentinels (t1 t2 : Z) (heap : gmap loc Node) :
  ∃ hd tl hn tn,
    Head (ll (InitList t1 t2 heap)) = Some hd ∧
    Tail (ll (InitList t1 t2 heap)) = Some tl ∧
    hd ≠ tl ∧
    nodes (InitList t1 t2 heap) !! hd = Some hn ∧
    nodes (InitList t1 t2 heap) !! tl = Some tn ∧
    TTL hn = -1 ∧ Key hn = "" ∧ Value hn = VString "" ∧
    TTL tn = -1 ∧ Key tn = "" ∧ Value tn = VString "" ∧
    Next hn = Some tl ∧ Prev tn = Some hd ∧
    Prev hn = None ∧ Next tn = None ∧
    Size (ll (InitList t1 t2 heap)) = 0 ∧
    mux (InitList t1 t2 heap) = false.
Proof.
  destruct (InitList_nodes t1 t2 heap) as (Hne & Hll & Hhd & Htl & Hm & _).
  remember (InitList t1 t2 heap) as s eqn:Es. clear Es.
  eexists _, _, _, _. rewrite Hll. split_and!; try done.
Qed.
(** ** int32 arithmetic *)

Lemma wrap32_small z : - 2 ^ 31 ≤ z < 2 ^ 31 → wrap32 z = z.
Proof. intros H. unfold wrap32. rewrite Z.mod_small; lia. Qed.

Lemma wrap32_add a b : wrap32 (wrap32 a + b) = wrap32 (a + b).
Proof.
  unfold wrap32.
  replace ((a + 2 ^ 31) mod 2 ^ 32 - 2 ^ 31 + b + 2 ^ 31)
    with ((a + 2 ^ 31) mod 2 ^ 32 + b) by lia.
  rewrite Zplus_mod_idemp_l. f_equal. f_equal. lia.
Qed.

Lemma wrap32_range z : - 2 ^ 31 ≤ wrap32 z < 2 ^ 31.
Proof. unfold wrap32. pose proof (Z.mod_pos_bound (z + 2 ^ 31) (2 ^ 32)). lia. Qed.

Lemma wrap32_nonzero n : wrap32 (Z.of_nat n) ≠ 0 → n ≠ O.
Proof. intros H ->. by apply H. Qed.

(** ** Walking a chain *)

Lemma chain_walk s l :
  chain s l →
  ∃ hd tl,
    Head (ll s) = Some hd ∧ Tail (ll s) = Some tl ∧
    walk_next s = Some (hd :: l ++ [tl]) ∧
    walk_prev s = Some (reverse (hd :: l ++ [tl])) ∧
    elements s = l.
Proof.
  intros (hd & tl & Hh & Ht & Hnd & Hl & Hp & Hn).
  assert (Hfuel : (length l + 2 ≤ size (nodes s))%nat).
  { etrans; [| apply (NoDup_alloc_length (nodes s) _ Hnd)].
    - simpl. rewrite length_app. simpl. lia.
    - intros y Hy. eapply linked_alloc; [done | | done].
      simpl. rewrite length_app. simpl. lia. }
  assert (Hw : walk_next s = Some (hd :: l ++ [tl])).
  { unfold walk_next. rewrite Hh. by apply walk_next_linked. }
  exists hd, tl. split_and!; try done.
  - unfold walk_prev. rewrite Ht.
    rewrite (walk_prev_linked _ _ hd l tl) by done.
    by rewrite reverse_cons, reverse_app.
  - unfold elements. rewrite Hw. simpl. apply removelast_last.
Qed.

Lemma chain_elements s l : chain s l → elements s = l.
Proof. intros (? & ? & _ & _ & _ & _ & ?)%chain_walk. done. Qed.

Lemma wf_chain s l : wf s l → chain s l.
Proof. by intros []. Qed.

Lemma list_snoc_inv (l : list loc) : l ≠ [] → ∃ l' e, l = l' ++ [e].
Proof.
  destruct l as [|a l]; [done | intros _].
  destruct (cons_is_snoc a l) as (p & z & E). eauto.
Qed.
(** ** Every way a call can return *)

Lemma bind_Ret {A B} (m : M A) (f : A → M B) s b s' :
  bind m f s = (Ret b, s') → ∃ a s1, m s = (Ret a, s1) ∧ f a s1 = (Ret b, s').
Proof.
  unfold bind. destruct (m s) as [[a | |] s1]; [eauto | done | done].
Qed.

Lemma with_defer_Ret {A} (d : M unit) (body : M A) s a s' :
  with_defer d body s = (Ret a, s') → ∃ s1, body s = (Ret a, s1).
Proof.
  unfold with_defer. destruct (body s) as [[a' | |] s1]; [| done | done].
  destruct (d s1) as [[[] | |] s2]; [| done | done].
  intros [= -> ->]. eauto.
Qed.

Lemma ret_Ret {A} (a b : A) s s' : ret a s = (Ret b, s') → a = b.
Proof. by intros [= -> _]. Qed.

Ltac inv_run H :=
  repeat first
    [ apply bind_Ret in H as (? & ? & _ & H); cbv beta in H
    | apply with_defer_Ret in H as (? & H)
    | apply ret_Ret in H
    | match type of H with
      | (if ?b then _ else _) _ = _ => destruct b
      end ].

Lemma Insert_error key value ttl now s r err s' :
  Insert key value ttl now s = (Ret (r, err), s') → err = None.
Proof. unfold Insert. intros H. inv_run H. by injection H as _ <-. Qed.

Lemma RemoveLast_error s r err s' :
  RemoveLast s = (Ret (r, Some err), s') → err = EmptyList.
Proof. unfold RemoveLast. intros H. inv_run H; by simplify_eq. Qed.

Lemma RemoveNode_error node s r err s' :
  RemoveNode node s = (Ret (r, Some err), s') → err = EmptyList.
Proof. unfold RemoveNode. intros H. inv_run H; by simplify_eq. Qed.

Lemma GetLastNode_error s r err s' :
  GetLastNode s = (Ret (r, Some err), s') → err = EmptyList.
Proof. unfold GetLastNode. intros H. inv_run H; by simplify_eq. Qed.
(** ** The operations on a well-formed list *)

Lemma events_of_trace {A} (m : M A) s evs :
  trace (snd (m s)) = trace s ++ evs → events_of m s = evs.
Proof. unfold events_of. intros ->. by rewrite drop_app_length. Qed.

Lemma unlinked_wf s s' l1 e l2 p q :
  wf s (l1 ++ e :: l2) → unlinked s s' l1 e l2 p q →
  wf s' (l1 ++ l2) ∧ Size (ll s') = Size (ll s) - 1.
Proof.
  intros (Hc & Hs & Hb & Hm) (Hc' & Hll & Hm' & _).
  rewrite length_app in Hs, Hb. simpl in Hs, Hb.
  assert (Size (ll s') = Size (ll s) - 1) as Hs'.
  { rewrite Hll. simpl. apply wrap32_small. lia. }
  split; [| done]. split_and!; try done.
  - rewrite Hs', Hs, length_app. lia.
  - rewrite length_app. lia.
Qed.

Lemma RemoveLast_wf s l e :
  wf s (l ++ [e]) →
  ∃ s' p tl,
    RemoveLast s = (Ret (Some e, None), s') ∧
    unlinked s s' l e [] p tl ∧
    trace s' = trace s ++ RemoveLast_events p e tl.
Proof.
  intros (Hc & Hs & Hb & Hm). apply RemoveLast_chain; [done | done |].
  rewrite Hs, length_app. simpl. lia.
Qed.

Lemma RemoveNode_wf s l1 e l2 :
  wf s (l1 ++ e :: l2) →
  ∃ s' p q,
    RemoveNode (Some e) s = (Ret (Some e, None), s') ∧
    unlinked s s' l1 e l2 p q.
Proof.
  intros (Hc & Hs & Hb & Hm).
  destruct (decide (Size (ll s) = 1)) as [H1 | H1].
  - assert (l1 = [] ∧ l2 = []) as [-> ->].
    { rewrite H1, length_app in Hs. simpl in Hs.
      destruct l1, l2; simpl in Hs; try lia. done. }
    destruct (RemoveNode_single_chain (Some e) s [] e) as (s' & p & tl & Hr & Hun & _); try done.
    eauto.
  - destruct (RemoveNode_chain s l1 e l2) as (s' & p & q & Hr & Hun & _); try done.
    + rewrite Hs, length_app. simpl. lia.
    + eauto.
Qed.

Lemma GetLastNode_wf s l e :
  wf s (l ++ [e]) →
  ∃ tl, Tail (ll s) = Some tl ∧ prevOf (nodes s) tl = Some e ∧
    GetLastNode s = (Ret (Some e, None), with_trace s (GetLastNode_events tl)).
Proof.
  intros (Hc & Hs & Hb & Hm).
  destruct (GetLastNode_chain s l e) as (tl & Ht & Hr); [done | done | |].
  { rewrite Hs, length_app. simpl. lia. }
  exists tl. split_and!; try done.
  destruct (remove_chain _ _ _ _ Hc)
    as (hd & tl' & p & pn & q & qn & en & Hh & Ht' & Hen & Hp & Hq & Hpn & Hqn & Hpe & Hqe
        & ? & ? & ? & ? & ? & Hlast & Hhead & Hun).
  simpl in Hhead. injection Hhead as <-.
  rewrite Ht in Ht'. injection Ht' as <-.
  by rewrite (prevOf_lookup _ _ _ Hqn).
Qed.

Lemma Insert_wf key value ttl now s l :
  wf s l → Z.of_nat (length l) + 1 < 2 ^ 31 →
  ∃ s' a, Insert key value ttl now s = (Ret (Some a, None), s') ∧ wf s' (a :: l).
Proof.
  intros (Hc & Hs & Hb & Hm) Hlt.
  destruct (Insert_chain key value ttl now s l Hc Hm)
    as (s' & hd & x & Hr & Hc' & Hll & Hm' & _).
  exists s', (fresh (dom (nodes s))). split; [done |].
  split_and!; try done.
  - rewrite Hll. simpl. rewrite wrap32_small; lia.
  - simpl. lia.
Qed.

Lemma wf_InitList t1 t2 heap : wf (InitList t1 t2 heap) [].
Proof.
  destruct (InitList_nodes t1 t2 heap) as (_ & Hll & _ & _ & Hm & _).
  split_and!; [apply InitList_chain | by rewrite Hll | done | done].
Qed.
(** ** The scenario states are well formed *)

Ltac wf_by_computation hd tl :=
  split_and!;
    [ exists hd, tl; split_and!; [reflexivity | reflexivity | ];
      split_and!;
        [ apply (bool_decide_unpack (NoDup _)); vm_compute; exact I
        | repeat split; vm_compute; reflexivity
        | vm_compute; reflexivity
        | vm_compute; reflexivity ]
    | reflexivity | reflexivity | reflexivity ].

Lemma wf_scenario0 : wf scenario0 [].
Proof. wf_by_computation 1%positive 2%positive. Qed.

Lemma wf_scenario1 : wf scenario1 [3%positive].
Proof. wf_by_computation 1%positive 2%positive. Qed.

Lemma wf_scenario2 : wf scenario2 [4%positive; 3%positive].
Proof. wf_by_computation 1%positive 2%positive. Qed.

(** ** Claims about single calls *)

(** C4: on a list with size 0 (and its lock free), [RemoveLast],
    [RemoveNode] and [GetLastNode] each return the EmptyList error with a nil
    node and leave the heap and the list object as they were; and whatever
    the state, the only error value any of the four operations returns is
    EmptyList. *)
Theorem empty_list_errors (s : State) (node : ptr) :
  mux s = false → Size (ll s) = 0 →
  (∃ s', RemoveLast s = (Ret (None, Some EmptyList), s') ∧
         nodes s' = nodes s ∧ ll s' = ll s ∧ mux s' = false) ∧
  (∃ s', RemoveNode node s = (Ret (None, Some EmptyList), s') ∧
         nodes s' = nodes s ∧ ll s' = ll s ∧ mux s' = false) ∧
  (∃ s', GetLastNode s = (Ret (None, Some EmptyList), s') ∧
         nodes s' = nodes s ∧ ll s' = ll s ∧ mux s' = false) ∧
  (∀ op s0 r err s', exec op s0 = (Ret (r, Some err), s') → err = EmptyList).
Proof.
  intros Hm Hz. split_and!.
  - eexists. by rewrite RemoveLast_empty.
  - eexists. by rewrite RemoveNode_empty.
  - eexists. by rewrite GetLastNode_empty.
  - intros [key value ttl now | | n |] s0 r err s' H; simpl in H.
    + by apply Insert_error in H.
    + by apply RemoveLast_error in H.
    + by apply RemoveNode_error in H.
    + by apply GetLastNode_error in H.
Qed.

Lemma empty_list_errors_witness :
  mux scenario0 = false ∧ Size (ll scenario0) = 0 ∧
  ∃ s', RemoveNode (Some 7%positive) scenario0 = (Ret (None, Some EmptyList), s') ∧
        nodes s' = nodes scenario0 ∧ ll s' = ll scenario0 ∧ mux s' = false.
Proof.
  split; [reflexivity |]. split; [reflexivity |].
  apply (empty_list_errors scenario0 (Some 7%positive)); reflexivity.
Defined.



(** C9: [Insert] on a well-formed empty list followed at once by
    [GetLastNode] returns the element [Insert] returned, which is then the
    only real element; [Insert] returns on every well-formed list, and its
    error result is nil whenever it returns. *)
Theorem Insert_then_GetLastNode (key : string) (value : Any) (ttl now : Z)
    (s : State) :
  wf s [] →
  (∃ a s1 s2,
     Insert key value ttl now s = (Ret (Some a, None), s1) ∧
     GetLastNode s1 = (Ret (Some a, None), s2) ∧
     elements s1 = [a]) ∧
  (∀ s0 l0, chain s0 l0 → mux s0 = false →
     ∃ a0 s', Insert key value ttl now s0 = (Ret (Some a0, None), s')) ∧
  (∀ s0 r err s', Insert key value ttl now s0 = (Ret (r, err), s') → err = None).
Proof.
  intros Hwf. split_and!.
  - destruct (Insert_wf key value ttl now s [] Hwf) as (s1 & a & Hr & Hwf1); [simpl; lia |].
    destruct (GetLastNode_wf s1 [] a Hwf1) as (tl & _ & _ & Hg).
    eexists a, s1, _. split_and!; [done | done |].
    by apply chain_elements, wf_chain.
  - intros s0 l0 Hc Hm.
    destruct (Insert_chain key value ttl now s0 l0 Hc Hm) as (s' & _ & _ & Hr & _). eauto.
  - intros s0 r err s'. apply Insert_error.
Qed.

Lemma Insert_then_GetLastNode_witness :
  wf scenario0 [] ∧
  ∃ a s1 s2,
    Insert "a" (VInt 1) 60 101 scenario0 = (Ret (Some a, None), s1) ∧
    GetLastNode s1 = (Ret (Some a, None), s2) ∧
    elements s1 = [a].
Proof.
  split; [exact wf_scenario0 |].
  apply (Insert_then_GetLastNode "a" (VInt 1) 60 101 scenario0). exact wf_scenario0.
Defined.


(** C10: a successful removal leaves the removed node itself as it was: on a
    well-formed list, after [RemoveNode] of a linked element [e], and after
    [RemoveLast] when [e] is the last element, the node [e] is unchanged in
    the heap, its [Prev] and [Next] still point at its former neighbours [p]
    and [q], while [p] and [q] now point at each other. *)
Theorem removed_node_keeps_links (s : State) (l1 : list loc) (e : loc) (l2 : list loc) :
  wf s (l1 ++ e :: l2) →
  ∃ p q,
    prevOf (nodes s) e = Some p ∧ nextOf (nodes s) e = Some q ∧
    (∃ s', RemoveNode (Some e) s = (Ret (Some e, None), s') ∧
           nodes s' !! e = nodes s !! e ∧
           prevOf (nodes s') e = Some p ∧ nextOf (nodes s') e = Some q ∧
           nextOf (nodes s') p = Some q ∧ prevOf (nodes s') q = Some p) ∧
    (l2 = [] →
     ∃ s', RemoveLast s = (Ret (Some e, None), s') ∧
           nodes s' !! e = nodes s !! e ∧
           prevOf (nodes s') e = Some p ∧ nextOf (nodes s') e = Some q ∧
           nextOf (nodes s') p = Some q ∧ prevOf (nodes s') q = Some p).
Proof.
  intros Hwf.
  destruct (RemoveNode_wf s l1 e l2 Hwf) as (s' & p & q & Hr & Hun).
  pose proof Hun as (_ & _ & _ & _ & Hk & Hp & Hq & Hpq & Hqp & _).
  exists p, q. split_and!; try done.
  - exists s'. split_and!; try done.
    + unfold prevOf in *. by rewrite Hk.
    + unfold nextOf in *. by rewrite Hk.
  - intros ->.
    destruct (RemoveLast_wf s l1 e Hwf) as (s'' & p' & tl & Hr' & Hun' & _).
    destruct Hun' as (_ & _ & _ & _ & Hk' & Hp' & Hq' & Hpq' & Hqp' & _).
    rewrite Hp in Hp'. rewrite Hq in Hq'. simplify_eq.
    exists s''. split_and!; try done.
    + unfold prevOf in *. by rewrite Hk'.
    + unfold nextOf in *. by rewrite Hk'.
Qed.

Lemma removed_node_keeps_links_witness :
  wf scenario2 ([4%positive] ++ 3%positive :: []) ∧
  ∃ p q,
    prevOf (nodes scenario2) 3%positive = Some p ∧
    nextOf (nodes scenario2) 3%positive = Some q ∧
    (∃ s', RemoveNode (Some 3%positive) scenario2 = (Ret (Some 3%positive, None), s') ∧
           nodes s' !! 3%positive = nodes scenario2 !! 3%positive ∧
           prevOf (nodes s') 3%positive = Some p ∧ nextOf (nodes s') 3%positive = Some q ∧
           nextOf (nodes s') p = Some q ∧ prevOf (nodes s') q = Some p) ∧
    (@nil loc = [] →
     ∃ s', RemoveLast scenario2 = (Ret (Some 3%positive, None), s') ∧
           nodes s' !! 3%positive = nodes scenario2 !! 3%positive ∧
           prevOf (nodes s') 3%positive = Some p ∧ nextOf (nodes s') 3%positive = Some q ∧
           nextOf (nodes s') p = Some q ∧ prevOf (nodes s') q = Some p).
Proof.
  split; [exact wf_scenario2 |].
  apply (removed_node_keeps_links scenario2 [4%positive] 3%positive []). exact wf_scenario2.
Defined.
(** ** Sequences of calls *)

Lemma payload_kept_refl h : payload_kept h h.
Proof. intros y n Hy. eauto 10. Qed.

Lemma payload_kept_alloc h h' y : payload_kept h h' → is_Some (h !! y) → is_Some (h' !! y).
Proof. intros Hk [n Hn]. destruct (Hk y n Hn) as (n' & Hn' & _). eauto. Qed.

Lemma inv_unlinked s s' l1 e l2 p q :
  inv s (l1 ++ e :: l2) → unlinked s s' l1 e l2 p q → inv s' (l1 ++ l2).
Proof.
  intros (Hc & Hs & Hm) (Hc' & Hll & Hm' & _). split_and!; try done.
  rewrite Hll. simpl. rewrite Hs, wrap32_add. f_equal.
  rewrite !length_app. simpl. lia.
Qed.

Lemma inv_nonempty s l : inv s l → Size (ll s) ≠ 0 → ∃ l' e, l = l' ++ [e].
Proof.
  intros (_ & Hs & _) Hz. apply list_snoc_inv. intros ->. by apply Hz.
Qed.

Lemma exec_inv op s l :
  inv s l → op_ok s op = true →
  ∃ l',
    inv (snd (exec op s)) l' ∧
    payload_kept (nodes s) (nodes (snd (exec op s))) ∧
    match op with
    | OpInsert _ _ _ _ =>
        fst (exec op s) = Ret (Some (fresh (dom (nodes s))), None) ∧
        l' = fresh (dom (nodes s)) :: l ∧
        nodes s !! fresh (dom (nodes s)) = None
    | _ => l' `sublist_of` l
    end.
Proof.
  intros Hinv Hok. pose proof Hinv as (Hc & Hs & Hm).
  destruct op as [key value ttl now | | node |]; simpl.
  - destruct (Insert_chain key value ttl now s l Hc Hm)
      as (s' & hd & x & Hr & Hc' & Hll & Hm' & Hk & _ & _ & Hf & _).
    rewrite Hr. simpl. eexists. split_and!; [| done | done | done | done].
    split_and!; [done | | done].
    rewrite Hll. simpl. rewrite Hs, wrap32_add. f_equal. lia.
  - destruct (decide (Size (ll s) = 0)) as [Hz | Hz].
    + rewrite RemoveLast_empty by done. simpl.
      exists l. split_and!; [done | apply payload_kept_refl | done].
    + destruct (inv_nonempty s l Hinv Hz) as (l0 & e & ->).
      destruct (RemoveLast_chain s l0 e Hc Hm Hz) as (s' & p & tl & Hr & Hun & _).
      rewrite Hr. simpl. exists l0. split_and!.
      * rewrite <- (app_nil_r l0). by eapply inv_unlinked.
      * by destruct Hun as (_ & _ & _ & ? & _).
      * by apply sublist_inserts_r.
  - destruct node as [e |]; [| done]. simpl in Hok.
    apply bool_decide_eq_true in Hok. rewrite (chain_elements s l Hc) in Hok.
    apply list_elem_of_split in Hok as (l1 & l2 & ->).
    destruct (decide (Size (ll s) = 0)) as [Hz | Hz].
    { rewrite RemoveNode_empty by done. simpl.
      eexists. split_and!; [done | apply payload_kept_refl | done]. }
    destruct (decide (Size (ll s) = 1)) as [H1 | H1].
    + destruct (inv_nonempty s _ Hinv Hz) as (l0 & e' & E). rewrite E in *.
      destruct (RemoveNode_single_chain (Some e) s l0 e' Hc Hm H1)
        as (s' & p & tl & Hr & Hun & _).
      rewrite Hr. simpl. exists l0. split_and!.
      * rewrite <- (app_nil_r l0). by eapply inv_unlinked.
      * by destruct Hun as (_ & _ & _ & ? & _).
      * by apply sublist_inserts_r.
    + destruct (RemoveNode_chain s l1 e l2 Hc Hm Hz H1) as (s' & p & q & Hr & Hun & _).
      rewrite Hr. simpl. exists (l1 ++ l2). split_and!.
      * by eapply inv_unlinked.
      * by destruct Hun as (_ & _ & _ & ? & _).
      * apply sublist_app; [done | by apply sublist_cons].
  - destruct (decide (Size (ll s) = 0)) as [Hz | Hz].
    + rewrite GetLastNode_empty by done. simpl.
      exists l. split_and!; [done | apply payload_kept_refl | done].
    + destruct (inv_nonempty s l Hinv Hz) as (l0 & e & ->).
      destruct (GetLastNode_chain s l0 e Hc Hm Hz) as (tl & _ & Hr).
      rewrite Hr. simpl. eexists. split_and!; [done | apply payload_kept_refl | done].
Qed.

Lemma inserted_cons s op ops :
  inserted s (op :: ops) = inserted s [op] ++ inserted (snd (exec op s)) ops.
Proof.
  simpl. destruct op; try done.
  destruct (fst _) as [[[a|] ?]| |]; done.
Qed.

Lemma exec_hinv op s l ins :
  hinv s l ins → op_ok s op = true →
  ∃ l', hinv (snd (exec op s)) l' (ins ++ inserted s [op]).
Proof.
  intros (Hinv & Hsub & Hnd & Hal) Hok.
  destruct (exec_inv op s l Hinv Hok) as (l' & Hinv' & Hk & Hop).
  exists l'. destruct op as [key value ttl now | | node |].
  - destruct Hop as (Hr & -> & Hf). simpl in *. rewrite Hr.
    split_and!; try done.
    + rewrite reverse_app. simpl. by apply sublist_skip.
    + apply NoDup_app. split_and!; [done | | apply NoDup_singleton].
      intros y Hy ->%list_elem_of_singleton.
      destruct (Hal _ Hy) as [n Hn]. by rewrite Hf in Hn.
    + intros a [Ha | ->%list_elem_of_singleton]%elem_of_app.
      * eapply payload_kept_alloc; eauto.
      * destruct Hinv' as ((hd & tl & _ & _ & Hd) & _).
        destruct Hd as (_ & Hl & _).
        eapply linked_alloc; [done | simpl; lia | set_solver].
  - simpl. rewrite app_nil_r. split_and!; try done.
    + by trans l.
    + intros a Ha. eapply payload_kept_alloc; eauto.
  - assert (inserted s [OpRemoveNode node] = []) as -> by done.
    rewrite app_nil_r. split_and!; try done.
    + by trans l.
    + intros a Ha. eapply payload_kept_alloc; eauto.
  - simpl. rewrite app_nil_r. split_and!; try done.
    + by trans l.
    + intros a Ha. eapply payload_kept_alloc; eauto.
Qed.

Lemma run_cons op ops s : run (op :: ops) s = run ops (snd (exec op s)).
Proof. done. Qed.

Lemma run_hinv ops : ∀ s l ins,
  hinv s l ins → ops_ok s ops = true →
  ∃ l', hinv (run ops s) l' (ins ++ inserted s ops).
Proof.
  induction ops as [|op ops IH]; intros s l ins Hh Hok.
  - exists l. simpl. by rewrite app_nil_r.
  - simpl in Hok. apply andb_true_iff in Hok as [Hok1 Hok2].
    destruct (exec_hinv op s l ins Hh Hok1) as (l1 & Hh1).
    destruct (IH _ _ _ Hh1 Hok2) as (l' & Hh').
    exists l'. rewrite run_cons, inserted_cons.
    by rewrite <- app_assoc in Hh'.
Qed.

Lemma hinv_InitList t1 t2 heap : hinv (InitList t1 t2 heap) [] [].
Proof.
  destruct (wf_InitList t1 t2 heap) as (Hc & Hs & _ & Hm).
  split_and!; try done.
  - apply NoDup_nil_2.
  - by intros a ?%elem_of_nil.
Qed.

(** Every state reached from a fresh list by calls that respect the
    contract of [RemoveNode]. *)
Lemma reachable_hinv t1 t2 heap ops :
  ops_ok (InitList t1 t2 heap) ops = true →
  ∃ l, hinv (run ops (InitList t1 t2 heap)) l (inserted (InitList t1 t2 heap) ops).
Proof.
  intros Hok.
  destruct (run_hinv ops _ _ _ (hinv_InitList t1 t2 heap) Hok) as (l & Hl). eauto.
Qed.
(** ** Sequences of insertions *)

Lemma keyed_kept h h' p ks : keyed h p ks → payload_kept h h' → keyed h' p ks.
Proof.
  intros Hk Hp. eapply Forall2_impl; [exact Hk |].
  intros a k Ha. simpl in Ha.
  destruct (h !! a) as [n|] eqn:E; [| done].
  destruct (Hp a n E) as (n' & -> & HK & _). simpl in *. congruence.
Qed.

Lemma run_inserts calls : ∀ s l hd tl ks,
  inv s l → Head (ll s) = Some hd → Tail (ll s) = Some tl →
  keyed (nodes s) (hd :: l ++ [tl]) ("" :: ks ++ [""]) →
  ∃ l',
    inv (run (insert_op <$> calls) s) l' ∧
    Head (ll (run (insert_op <$> calls) s)) = Some hd ∧
    Tail (ll (run (insert_op <$> calls) s)) = Some tl ∧
    length l' = (length calls + length l)%nat ∧
    keyed (nodes (run (insert_op <$> calls) s)) (hd :: l' ++ [tl])
          ("" :: (reverse (ic_key <$> calls) ++ ks) ++ [""]).
Proof.
  induction calls as [|c calls IH]; intros s l hd tl ks Hinv Hh Ht Hk.
  - exists l. by split_and!.
  - pose proof Hinv as (Hc & Hs & Hm).
    destruct (Insert_chain (ic_key c) (ic_value c) (ic_ttl c) (ic_now c) s l Hc Hm)
      as (s' & hd' & x & Hr & Hc' & Hll & Hm' & Hkept & Hnew & _).
    assert (Hs' : snd (exec (insert_op c) s) = s') by (simpl; by rewrite Hr).
    rewrite fmap_cons, run_cons, Hs'.
    destruct (IH s' (fresh (dom (nodes s)) :: l) hd tl (ic_key c :: ks))
      as (l' & Hinv' & Hh' & Ht' & Hlen & Hk').
    + split_and!; [done | | done].
      rewrite Hll. simpl. rewrite Hs, wrap32_add. f_equal. lia.
    + by rewrite Hll.
    + by rewrite Hll.
    + pose proof (keyed_kept _ _ _ _ Hk Hkept) as Hk2.
      apply Forall2_cons in Hk2 as [Hkh Hkl].
      apply Forall2_cons. split; [done |].
      simpl. apply Forall2_cons. split; [by rewrite Hnew | exact Hkl].
    + exists l'. split_and!; try done.
      * rewrite Hlen. simpl. lia.
      * replace (reverse (ic_key <$> c :: calls) ++ ks)
          with (reverse (ic_key <$> calls) ++ ic_key c :: ks); [done |].
        by rewrite fmap_cons, reverse_cons, <- app_assoc.
Qed.

Lemma ops_ok_inserts calls : ∀ s, ops_ok s (insert_op <$> calls) = true.
Proof. induction calls as [|c calls IH]; intros s; [done |]. simpl. apply IH. Qed.

Lemma keyed_InitList t1 t2 heap :
  ∃ hd tl,
    Head (ll (InitList t1 t2 heap)) = Some hd ∧
    Tail (ll (InitList t1 t2 heap)) = Some tl ∧
    keyed (nodes (InitList t1 t2 heap)) (hd :: [] ++ [tl]) ("" :: [] ++ [""]).
Proof.
  destruct (InitList_nodes t1 t2 heap) as (_ & Hll & Hhd & Htl & _).
  remember (InitList t1 t2 heap) as s eqn:Es. clear Es.
  eexists _, _. rewrite Hll. split; [reflexivity |]. split; [reflexivity |].
  repeat apply Forall2_cons_2; [by rewrite Hhd | by rewrite Htl | constructor].
Qed.

Lemma inserts_from_InitList t1 t2 heap calls :
  let s := run (insert_op <$> calls) (InitList t1 t2 heap) in
  ∃ l,
    inv s l ∧ length l = length calls ∧
    walk_keys s = Some ("" :: reverse (ic_key <$> calls) ++ [""]).
Proof.
  intros s.
  destruct (keyed_InitList t1 t2 heap) as (hd & tl & Hh & Ht & Hk).
  destruct (hinv_InitList t1 t2 heap) as (Hinv & _).
  destruct (run_inserts calls _ _ _ _ _ Hinv Hh Ht Hk)
    as (l & Hinv' & Hh' & Ht' & Hlen & Hk').
  fold s in Hinv', Hh', Ht', Hk'.
  exists l. split_and!; [done | simpl in Hlen; lia |].
  destruct Hinv' as (Hc & _).
  destruct (chain_walk s l Hc) as (hd' & tl' & Hh2 & Ht2 & Hw & _).
  rewrite Hh' in Hh2. rewrite Ht' in Ht2. simplify_eq.
  unfold walk_keys. rewrite Hw.
  rewrite app_nil_r in Hk'. by apply mapM_Some_2.
Qed.

(** C2, as amended: after any sequence of [Insert] calls on a fresh list
    (with distinct keys or not), the walk from head to tail yields the
    empty key of the head sentinel, the inserted keys from the most recent
    to the oldest, and the empty key of the tail sentinel; there are as many
    real elements as calls; and [Size] is the number of calls as an int32,
    hence equal to it when there are fewer than 2^31 calls. *)
Theorem inserts_reverse_order (t1 t2 : Z) (heap : gmap loc Node)
    (calls : list InsertCall) :
  let s := run (insert_op <$> calls) (InitList t1 t2 heap) in
  walk_keys s = Some ("" :: reverse (ic_key <$> calls) ++ [""]) ∧
  length (elements s) = length calls ∧
  Size (ll s) = wrap32 (Z.of_nat (length calls)) ∧
  (Z.of_nat (length calls) < 2 ^ 31 → Size (ll s) = Z.of_nat (length calls)).
Proof.
  intros s.
  destruct (inserts_from_InitList t1 t2 heap calls) as (l & (Hc & Hs & _) & Hlen & Hw).
  fold s in Hc, Hs, Hw.
  assert (Hsz : Size (ll s) = wrap32 (Z.of_nat (length calls))) by (by rewrite Hs, Hlen).
  split_and!; [done | by rewrite (chain_elements s l Hc) | done |].
  intros Hlt. rewrite Hsz. apply wrap32_small. lia.
Qed.

Lemma inserts_reverse_order_witness :
  let calls := [mkCall "a" (VInt 1) 60 101; mkCall "b" (VInt 2) 60 102] in
  let s := run (insert_op <$> calls) (InitList 100 100 ∅) in
  Z.of_nat (length calls) < 2 ^ 31 ∧
  walk_keys s = Some ["" ; "b"; "a"; ""] ∧
  Size (ll s) = 2.
Proof.
  intros calls s. split; [reflexivity |].
  destruct (inserts_reverse_order 100 100 ∅ calls) as (Hw & _ & _ & Hs).
  split; [exact Hw | apply Hs; reflexivity].
Defined.
(** While fewer than 2^31 elements are linked, a reachable state satisfies
    the invariants of the data model. *)
Lemma reachable_wf t1 t2 heap ops :
  ops_ok (InitList t1 t2 heap) ops = true →
  Z.of_nat (length (elements (run ops (InitList t1 t2 heap)))) < 2 ^ 31 →
  wf (run ops (InitList t1 t2 heap)) (elements (run ops (InitList t1 t2 heap))).
Proof.
  intros Hok Hlt.
  destruct (reachable_hinv t1 t2 heap ops Hok) as (l & (Hc & Hs & Hm) & _).
  rewrite (chain_elements _ _ Hc) in *.
  split_and!; [done | | done | done].
  rewrite Hs. apply wrap32_small. lia.
Qed.

(** C1, as amended: after every sequence of calls on a fresh list in which
    [RemoveNode] is only given real elements linked at that moment, the walk
    from head along [Next] visits the head sentinel, the real elements [l]
    and the tail sentinel, the walk from tail along [Prev] visits the same
    nodes in reverse, and [Size] is the number of real elements as an int32
    (modulo 2^32); while fewer than 2^31 elements are linked, [Size] is that
    number and is not negative. *)
Theorem reachable_chain_invariant (t1 t2 : Z) (heap : gmap loc Node) (ops : list Op) :
  ops_ok (InitList t1 t2 heap) ops = true →
  ∃ hd tl l,
    Head (ll (run ops (InitList t1 t2 heap))) = Some hd ∧
    Tail (ll (run ops (InitList t1 t2 heap))) = Some tl ∧
    walk_next (run ops (InitList t1 t2 heap)) = Some (hd :: l ++ [tl]) ∧
    walk_prev (run ops (InitList t1 t2 heap)) = Some (reverse (hd :: l ++ [tl])) ∧
    elements (run ops (InitList t1 t2 heap)) = l ∧
    NoDup (hd :: l ++ [tl]) ∧
    Size (ll (run ops (InitList t1 t2 heap))) = wrap32 (Z.of_nat (length l)) ∧
    (Z.of_nat (length l) < 2 ^ 31 →
       Size (ll (run ops (InitList t1 t2 heap))) = Z.of_nat (length l) ∧
       0 ≤ Size (ll (run ops (InitList t1 t2 heap)))).
Proof.
  intros Hok.
  destruct (reachable_hinv t1 t2 heap ops Hok) as (l & (Hc & Hs & _) & _).
  destruct (chain_walk _ _ Hc) as (hd & tl & Hh & Ht & Hw & Hp & He).
  exists hd, tl, l. split_and!; try done.
  - destruct Hc as (hd' & tl' & Hh' & Ht' & Hnd & _).
    rewrite Hh in Hh'. rewrite Ht in Ht'. by simplify_eq.
  - intros Hlt. rewrite Hs, wrap32_small; lia.
Qed.

Lemma reachable_chain_invariant_witness :
  let ops := [OpInsert "a" (VInt 1) 60 101; OpInsert "b" (VInt 2) 60 102;
              OpGetLastNode; OpRemoveLast; OpRemoveNode (Some 4%positive);
              OpGetLastNode] in
  ops_ok (InitList 100 100 ∅) ops = true ∧
  ∃ hd tl l,
    Head (ll (run ops (InitList 100 100 ∅))) = Some hd ∧
    Tail (ll (run ops (InitList 100 100 ∅))) = Some tl ∧
    walk_next (run ops (InitList 100 100 ∅)) = Some (hd :: l ++ [tl]) ∧
    walk_prev (run ops (InitList 100 100 ∅)) = Some (reverse (hd :: l ++ [tl])) ∧
    elements (run ops (InitList 100 100 ∅)) = l ∧
    NoDup (hd :: l ++ [tl]) ∧
    Size (ll (run ops (InitList 100 100 ∅))) = wrap32 (Z.of_nat (length l)) ∧
    (Z.of_nat (length l) < 2 ^ 31 →
       Size (ll (run ops (InitList 100 100 ∅))) = Z.of_nat (length l) ∧
       0 ≤ Size (ll (run ops (InitList 100 100 ∅)))).
Proof.
  intros ops. split; [reflexivity |].
  apply (reachable_chain_invariant 100 100 ∅ ops). reflexivity.
Defined.

(** ** Where the int32 counter gives way *)

Lemma two31_nonneg : 0 ≤ 2 ^ 31.
Proof. lia. Qed.

Lemma wrap32_two31 : wrap32 (2 ^ 31) = - 2 ^ 31.
Proof. reflexivity. Qed.

Lemma replicate_inserts n :
  ops_ok scenario0 (replicate n (OpInsert "k" VNil 0 0)) = true ∧
  length (elements (run (replicate n (OpInsert "k" VNil 0 0)) scenario0)) = n ∧
  Size (ll (run (replicate n (OpInsert "k" VNil 0 0)) scenario0)) = wrap32 (Z.of_nat n).
Proof.
  assert (E : replicate n (OpInsert "k" VNil 0 0)
              = insert_op <$> replicate n (mkCall "k" VNil 0 0))
    by (by rewrite fmap_replicate).
  rewrite E. unfold scenario0.
  destruct (inserts_from_InitList 100 100 ∅ (replicate n (mkCall "k" VNil 0 0)))
    as (l & (Hc & Hs & _) & Hlen & _).
  rewrite length_replicate in Hlen.
  split_and!.
  - apply ops_ok_inserts.
  - by rewrite (chain_elements _ _ Hc).
  - by rewrite Hs, Hlen.
Qed.

(** C1, counterexample: 2^31 calls of [Insert] on a fresh list respect the
    contract, leave 2^31 real elements linked, and leave [Size] at -2^31:
    negative, and not the number of elements. *)
Lemma many_inserts_overflow :
  ops_ok scenario0 many_inserts = true ∧
  Z.of_nat (length (elements (run many_inserts scenario0))) = 2 ^ 31 ∧
  Size (ll (run many_inserts scenario0)) = - 2 ^ 31 ∧
  Size (ll (run many_inserts scenario0)) < 0.
Proof.
  unfold many_inserts.
  destruct (replicate_inserts (Z.to_nat (2 ^ 31))) as (H1 & H2 & H3).
  rewrite H2, H3, (Z2Nat.id _ two31_nonneg), wrap32_two31.
  split; [exact H1 |]. split; [reflexivity |]. split; [reflexivity |]. reflexivity.
Qed.

Lemma distinct_calls_keys n : NoDup (ic_key <$> distinct_calls n).
Proof.
  unfold distinct_calls. rewrite <- list_fmap_compose.
  assert (Inj (=) (=) (ic_key ∘ (λ i : nat, mkCall (pretty i) VNil 0 0))) as Hinj.
  { intros i j Hij. simpl in Hij. by apply (inj pretty) in Hij. }
  apply (NoDup_fmap_2 _), NoDup_seq.
Qed.

Lemma distinct_calls_length n : length (distinct_calls n) = n.
Proof. unfold distinct_calls. by rewrite length_fmap, length_seq. Qed.

Lemma distinct_inserts n :
  Size (ll (run (insert_op <$> distinct_calls n) scenario0)) = wrap32 (Z.of_nat n).
Proof.
  unfold scenario0.
  destruct (inserts_from_InitList 100 100 ∅ (distinct_calls n))
    as (l & (Hc & Hs & _) & Hlen & _).
  by rewrite Hs, Hlen, distinct_calls_length.
Qed.

(** C2, counterexample: the 2^31 calls of [Insert] with the keys "0", "1",
    ... have distinct keys, and after them [Size] is -2^31, not the number
    of inserts. *)
Lemma distinct_inserts_overflow :
  NoDup (ic_key <$> distinct_calls (Z.to_nat (2 ^ 31))) ∧
  Z.of_nat (length (distinct_calls (Z.to_nat (2 ^ 31)))) = 2 ^ 31 ∧
  Size (ll (run (insert_op <$> distinct_calls (Z.to_nat (2 ^ 31))) scenario0)) = - 2 ^ 31 ∧
  Size (ll (run (insert_op <$> distinct_calls (Z.to_nat (2 ^ 31))) scenario0))
    ≠ Z.of_nat (length (distinct_calls (Z.to_nat (2 ^ 31)))).
Proof.
  rewrite distinct_inserts, distinct_calls_length, (Z2Nat.id _ two31_nonneg), wrap32_two31.
  split; [apply distinct_calls_keys |]. split; [reflexivity |]. split; [reflexivity |].
  discriminate.
Qed.
(** ** The oldest element *)






(** ** The lock discipline *)

(** [Insert] and [RemoveLast] are one critical section each. *)
Lemma Insert_critical key value ttl now s l :
  chain s l → mux s = false →
  critical_section (events_of (Insert key value ttl now) s) = true ∧
  guarded false (events_of (Insert key value ttl now) s) = true.
Proof.
  intros Hc Hm.
  destruct (Insert_chain key value ttl now s l Hc Hm)
    as (s' & hd & x & Hr & _ & _ & _ & _ & _ & _ & _ & Htr).
  rewrite (events_of_trace _ s (Insert_events (fresh (dom (nodes s))) hd x))
    by (by rewrite Hr).
  done.
Qed.

Lemma RemoveLast_critical s l e :
  wf s (l ++ [e]) →
  critical_section (events_of RemoveLast s) = true ∧
  guarded false (events_of RemoveLast s) = true.
Proof.
  intros Hwf. destruct (RemoveLast_wf s l e Hwf) as (s' & p & tl & Hr & _ & Htr).
  rewrite (events_of_trace _ s (RemoveLast_events p e tl)) by (by rewrite Hr).
  done.
Qed.

(** C6: what the code does instead.  On every well-formed list with at
    least one real element, [GetLastNode] releases the lock right after the
    size check and reads [ll.Tail.Prev] without it; [RemoveNode] releases
    the lock after its size check and takes it again (itself, or through
    [RemoveLast]) before it unlinks the node, so its call is not one
    critical section. *)
Theorem lock_released_early (s : State) (l : list loc) (e : loc) :
  wf s (l ++ [e]) →
  (∃ tl, Tail (ll s) = Some tl ∧
     events_of GetLastNode s =
       [EvLock; EvLoad FSize; EvUnlock; EvLoad FTail; EvLoad (FPrev tl)]) ∧
  guarded false (events_of GetLastNode s) = false ∧
  critical_section (events_of GetLastNode s) = false ∧
  critical_section (events_of (RemoveNode (Some e)) s) = false.
Proof.
  intros Hwf.
  destruct (GetLastNode_wf s l e Hwf) as (tl & Ht & _ & Hg).
  assert (Hev : events_of GetLastNode s = GetLastNode_events tl).
  { apply events_of_trace. by rewrite Hg. }
  split_and!.
  - eauto.
  - by rewrite Hev.
  - by rewrite Hev.
  - destruct Hwf as (Hc & Hs & _ & Hm).
    destruct (decide (Size (ll s) = 1)) as [H1 | H1].
    + destruct (RemoveNode_single_chain (Some e) s l e Hc Hm H1)
        as (s' & p & tl' & Hr & _ & Htr & _).
      rewrite (events_of_trace _ s _ (eq_trans (f_equal (λ x, trace (snd x)) Hr) Htr)).
      done.
    + destruct (RemoveNode_chain s l e [] Hc Hm) as (s' & p & q & Hr & _ & Htr);
        [rewrite Hs, length_app; simpl; lia | done |].
      rewrite (events_of_trace _ s _ (eq_trans (f_equal (λ x, trace (snd x)) Hr) Htr)).
      done.
Qed.

Lemma lock_released_early_witness :
  wf scenario2 ([4%positive] ++ [3%positive]) ∧
  guarded false (events_of GetLastNode scenario2) = false ∧
  critical_section (events_of (RemoveNode (Some 3%positive)) scenario2) = false.
Proof.
  split; [exact wf_scenario2 |].
  destruct (lock_released_early scenario2 [4%positive] 3%positive wf_scenario2)
    as (_ & Hg & _ & Hc).
  split; [exact Hg | exact Hc].
Defined.

(** ** The scenario of the specification, run *)

(** [GetLastNode] returns "a"; [RemoveLast] returns "a" and leaves size 1;
    [RemoveNode] of "b" returns "b" and leaves size 0; [GetLastNode] then
    fails with EmptyList. *)
Example scenario_run :
  let a := Some 3%positive in
  let b := Some 4%positive in
  let s3 := snd (GetLastNode scenario2) in
  let s4 := snd (RemoveLast s3) in
  let s5 := snd (RemoveNode b s4) in
  fst (GetLastNode scenario2) = Ret (a, None) ∧
  fst (RemoveLast s3) = Ret (a, None) ∧ Size (ll s4) = 1 ∧
  fst (RemoveNode b s4) = Ret (b, None) ∧ Size (ll s5) = 0 ∧
  fst (GetLastNode s5) = Ret (None, Some EmptyList) ∧
  walk_keys scenario2 = Some [""; "b"; "a"; ""] ∧
  walk_keys s5 = Some [""; ""].
Proof. vm_compute. repeat split. Qed.

(** With a single element, [RemoveNode] goes through [RemoveLast]. *)
Example single_element_path :
  events_of (RemoveNode (Some 3%positive)) scenario1 =
    [EvLock; EvLoad FSize; EvLoad FSize; EvUnlock] ++ events_of RemoveLast scenario1.
Proof. reflexivity. Qed.

(** ** The lock, on every path *)

Lemma lock_triple_bind {A B} (m : M A) (f : A → M B) b b1 bR bP :
  lock_triple b m b1 bP → (∀ a, lock_triple b1 (f a) bR bP) →
  lock_triple b (bind m f) bR bP.
Proof.
  intros Hm Hf s Hs. unfold bind. specialize (Hm s Hs).
  destruct (m s) as [[a | |] s1]; [| done | done].
  by apply Hf.
Qed.

Lemma lock_triple_defer {A} (body : M A) :
  lock_triple true body true true →
  lock_triple true (with_defer unlock body) false false.
Proof.
  intros Hb s Hs. unfold with_defer, unlock. specialize (Hb s Hs).
  destruct (body s) as [[a | |] s1]; [| | done]; by rewrite Hb.
Qed.

Lemma lock_triple_lock bP : lock_triple false lock true bP.
Proof. intros s Hs. unfold lock. by rewrite Hs. Qed.

Lemma lock_triple_unlock bP : lock_triple true unlock false bP.
Proof. intros s Hs. unfold unlock. by rewrite Hs. Qed.

Lemma lock_triple_ret {A} (a : A) b bP : lock_triple b (ret a) b bP.
Proof. by intros s Hs. Qed.

Lemma lock_triple_alloc n b bP : lock_triple b (alloc n) b bP.
Proof. by intros s Hs. Qed.

Lemma lock_triple_load_Head b bP : lock_triple b load_Head b bP.
Proof. by intros s Hs. Qed.

Lemma lock_triple_load_Tail b bP : lock_triple b load_Tail b bP.
Proof. by intros s Hs. Qed.

Lemma lock_triple_load_Size b bP : lock_triple b load_Size b bP.
Proof. by intros s Hs. Qed.

Lemma lock_triple_add_Size d b bP : lock_triple b (add_Size d) b bP.
Proof. by intros s Hs. Qed.

Lemma lock_triple_load_Prev p b : lock_triple b (load_Prev p) b b.
Proof. intros s Hs. unfold load_Prev. destruct p as [a|]; [| done]. by destruct (nodes s !! a). Qed.

Lemma lock_triple_load_Next p b : lock_triple b (load_Next p) b b.
Proof. intros s Hs. unfold load_Next. destruct p as [a|]; [| done]. by destruct (nodes s !! a). Qed.

Lemma lock_triple_store_Prev p v b : lock_triple b (store_Prev p v) b b.
Proof. intros s Hs. unfold store_Prev. destruct p as [a|]; [| done]. by destruct (nodes s !! a). Qed.

Lemma lock_triple_store_Next p v b : lock_triple b (store_Next p v) b b.
Proof. intros s Hs. unfold store_Next. destruct p as [a|]; [| done]. by destruct (nodes s !! a). Qed.

Ltac lock_steps :=
  repeat first
    [ apply lock_triple_defer
    | apply lock_triple_ret
    | apply lock_triple_lock
    | apply lock_triple_unlock
    | apply lock_triple_alloc
    | apply lock_triple_load_Head
    | apply lock_triple_load_Tail
    | apply lock_triple_load_Size
    | apply lock_triple_add_Size
    | apply lock_triple_load_Prev
    | apply lock_triple_load_Next
    | apply lock_triple_store_Prev
    | apply lock_triple_store_Next
    | eapply lock_triple_bind; [| intros ?]
    | match goal with |- lock_triple _ (if ?c then _ else _) _ _ => destruct c end ].

Lemma lock_triple_Insert key value ttl now :
  lock_triple false (Insert key value ttl now) false false.
Proof. unfold Insert. lock_steps. Qed.

Lemma lock_triple_RemoveLast : lock_triple false RemoveLast false false.
Proof. unfold RemoveLast. lock_steps. Qed.

Lemma lock_triple_GetLastNode : lock_triple false GetLastNode false false.
Proof. unfold GetLastNode. lock_steps. Qed.

Lemma lock_triple_RemoveNode node : lock_triple false (RemoveNode node) false false.
Proof.
  unfold RemoveNode. pose proof lock_triple_RemoveLast as HRL.
  remember RemoveLast as RL eqn:E. clear E.
  lock_steps; try exact HRL.
Qed.

(** X1: whatever the heap and the list object hold, a call made with the
    lock free never blocks, and when it is over, by a return or by a panic
    (a nil dereference), the lock is free again. *)
Theorem lock_never_left_held (op : Op) (s : State) :
  mux s = false →
  fst (exec op s) ≠ Blocked ∧ mux (snd (exec op s)) = false.
Proof.
  intros Hs.
  assert (H : lock_triple false (exec op) false false).
  { destruct op; simpl.
    - apply lock_triple_Insert.
    - apply lock_triple_RemoveLast.
    - apply lock_triple_RemoveNode.
    - apply lock_triple_GetLastNode. }
  specialize (H s Hs). by destruct (exec op s) as [[a | |] s1].
Qed.

Lemma lock_never_left_held_witness :
  mux scenario2 = false ∧
  fst (exec (OpRemoveNode None) scenario2) = Panic ∧
  fst (exec (OpRemoveNode None) scenario2) ≠ Blocked ∧
  mux (snd (exec (OpRemoveNode None) scenario2)) = false.
Proof.
  split; [reflexivity |]. split; [reflexivity |].
  apply (lock_never_left_held (OpRemoveNode None) scenario2). reflexivity.
Defined.

(** ** The caller's data and the sentinels, on every path *)

Lemma payload_kept_trans h1 h2 h3 :
  payload_kept h1 h2 → payload_kept h2 h3 → payload_kept h1 h3.
Proof.
  intros H12 H23 y n Hy.
  destruct (H12 y n Hy) as (n2 & Hy2 & ? & ? & ? & ?).
  destruct (H23 y n2 Hy2) as (n3 & Hy3 & ? & ? & ? & ?).
  exists n3. split_and!; [done | congruence..].
Qed.

Lemma frame_ok_refl s : frame_ok s s.
Proof. split_and!; [apply payload_kept_refl | done | done]. Qed.

Lemma frame_ok_trans s1 s2 s3 : frame_ok s1 s2 → frame_ok s2 s3 → frame_ok s1 s3.
Proof.
  intros (H1 & H2 & H3) (H4 & H5 & H6). split_and!; [| congruence..].
  by eapply payload_kept_trans.
Qed.

Lemma frame_ok_same s s' :
  nodes s' = nodes s → Head (ll s') = Head (ll s) → Tail (ll s') = Tail (ll s) →
  frame_ok s s'.
Proof. intros Hn ? ?. split_and!; [| done..]. rewrite Hn. apply payload_kept_refl. Qed.

Lemma payload_kept_set_Prev h a n v :
  h !! a = Some n → payload_kept h (<[a := set_Prev v n]> h).
Proof.
  intros Ha y m Hy. destruct (decide (a = y)) as [-> | Hne].
  - rewrite lookup_insert_eq. simplify_eq. eauto 10.
  - rewrite lookup_insert_ne by done. eauto 10.
Qed.

Lemma payload_kept_set_Next h a n v :
  h !! a = Some n → payload_kept h (<[a := set_Next v n]> h).
Proof.
  intros Ha y m Hy. destruct (decide (a = y)) as [-> | Hne].
  - rewrite lookup_insert_eq. simplify_eq. eauto 10.
  - rewrite lookup_insert_ne by done. eauto 10.
Qed.

Lemma payload_kept_alloc_fresh (h : gmap loc Node) n :
  payload_kept h (<[fresh (dom h) := n]> h).
Proof.
  intros y m Hy. rewrite lookup_insert_ne by (by eapply fresh_ne). eauto 10.
Qed.

Lemma always_bind {A B} (m : M A) (f : A → M B) :
  always frame_ok m → (∀ a, always frame_ok (f a)) → always frame_ok (bind m f).
Proof.
  intros Hm Hf s. unfold bind. specialize (Hm s).
  destruct (m s) as [[a | |] s1]; [| done | done].
  eapply frame_ok_trans; [exact Hm | apply Hf].
Qed.

Lemma always_defer {A} (d : M unit) (body : M A) :
  always frame_ok d → always frame_ok body → always frame_ok (with_defer d body).
Proof.
  intros Hd Hb s. unfold with_defer. specialize (Hb s).
  destruct (body s) as [[a | |] s1]; [| | done].
  - specialize (Hd s1). destruct (d s1) as [[[] | |] s2];
      by eapply frame_ok_trans.
  - eapply frame_ok_trans; [exact Hb | apply Hd].
Qed.

Lemma always_lock : always frame_ok lock.
Proof. intros s. unfold lock. destruct (mux s); [apply frame_ok_refl | by apply frame_ok_same]. Qed.

Lemma always_unlock : always frame_ok unlock.
Proof. intros s. unfold unlock. destruct (mux s); [by apply frame_ok_same | apply frame_ok_refl]. Qed.

Lemma always_ret {A} (a : A) : always frame_ok (ret a).
Proof. intros s. apply frame_ok_refl. Qed.

Lemma always_alloc n : always frame_ok (alloc n).
Proof. intros s. split_and!; [apply payload_kept_alloc_fresh | done | done]. Qed.

Lemma always_load_Head : always frame_ok load_Head.
Proof. intros s. by apply frame_ok_same. Qed.

Lemma always_load_Tail : always frame_ok load_Tail.
Proof. intros s. by apply frame_ok_same. Qed.

Lemma always_load_Size : always frame_ok load_Size.
Proof. intros s. by apply frame_ok_same. Qed.

Lemma always_add_Size d : always frame_ok (add_Size d).
Proof. intros s. by apply frame_ok_same. Qed.

Lemma always_load_Prev p : always frame_ok (load_Prev p).
Proof.
  intros s. unfold load_Prev. destruct p as [a|]; [| apply frame_ok_refl].
  destruct (nodes s !! a); [by apply frame_ok_same | apply frame_ok_refl].
Qed.

Lemma always_load_Next p : always frame_ok (load_Next p).
Proof.
  intros s. unfold load_Next. destruct p as [a|]; [| apply frame_ok_refl].
  destruct (nodes s !! a); [by apply frame_ok_same | apply frame_ok_refl].
Qed.

Lemma always_store_Prev p v : always frame_ok (store_Prev p v).
Proof.
  intros s. unfold store_Prev. destruct p as [a|]; [| apply frame_ok_refl].
  destruct (nodes s !! a) eqn:E; [| apply frame_ok_refl].
  split_and!; [by apply payload_kept_set_Prev | done | done].
Qed.

Lemma always_store_Next p v : always frame_ok (store_Next p v).
Proof.
  intros s. unfold store_Next. destruct p as [a|]; [| apply frame_ok_refl].
  destruct (nodes s !! a) eqn:E; [| apply frame_ok_refl].
  split_and!; [by apply payload_kept_set_Next | done | done].
Qed.

Ltac frame_steps :=
  repeat first
    [ apply always_defer
    | apply always_ret
    | apply always_lock
    | apply always_unlock
    | apply always_alloc
    | apply always_load_Head
    | apply always_load_Tail
    | apply always_load_Size
    | apply always_add_Size
    | apply always_load_Prev
    | apply always_load_Next
    | apply always_store_Prev
    | apply always_store_Next
    | apply always_bind; [| intros ?]
    | match goal with |- always _ (if ?c then _ else _) => destruct c end ].

Lemma always_RemoveLast : always frame_ok RemoveLast.
Proof. unfold RemoveLast. frame_steps. Qed.

(** X2: no call, on any state, changes the key, value, TTL or creation
    time of a node that exists, removes a node from the heap, or changes
    [ll.Head] or [ll.Tail]: the list only ever rewrites [Prev], [Next] and
    [Size]. *)
Theorem payload_and_sentinels_kept (op : Op) (s : State) :
  payload_kept (nodes s) (nodes (snd (exec op s))) ∧
  Head (ll (snd (exec op s))) = Head (ll s) ∧
  Tail (ll (snd (exec op s))) = Tail (ll s).
Proof.
  assert (H : always frame_ok (exec op)); [| apply H].
  destruct op as [key value ttl now | | node |]; simpl.
  - unfold Insert. frame_steps.
  - apply always_RemoveLast.
  - unfold RemoveNode. pose proof always_RemoveLast as HRL.
    remember RemoveLast as RL eqn:E. clear E. frame_steps; exact HRL.
  - unfold GetLastNode. frame_steps.
Qed.

(** ** Misuse of [RemoveNode] *)

Lemma wf_scenario3 : wf scenario3 [5%positive; 4%positive; 3%positive].
Proof. wf_by_computation 1%positive 2%positive. Qed.

Lemma RemoveNode_nil_run s :
  mux s = false → (Size (ll s) =? 0) = false → (Size (ll s) =? 1) = false →
  RemoveNode None s =
    (Panic, with_trace s [EvLock; EvLoad FSize; EvLoad FSize; EvUnlock; EvLock; EvUnlock]).
Proof. intros Hm Hz H1. go. Qed.

(** X3: with two or more elements counted ([Size] neither 0 nor 1),
    [RemoveNode] of a nil node panics on its first dereference; nothing has
    been written, and the deferred unlock has released the lock. *)
Theorem RemoveNode_nil_panics (s : State) :
  mux s = false → Size (ll s) ≠ 0 → Size (ll s) ≠ 1 →
  ∃ s', RemoveNode None s = (Panic, s') ∧
        nodes s' = nodes s ∧ ll s' = ll s ∧ mux s' = false.
Proof.
  intros Hm Hz%Z.eqb_neq H1%Z.eqb_neq.
  eexists. split; [by apply RemoveNode_nil_run |]. by simpl.
Qed.

Lemma RemoveNode_nil_panics_witness :
  mux scenario2 = false ∧ Size (ll scenario2) ≠ 0 ∧ Size (ll scenario2) ≠ 1 ∧
  ∃ s', RemoveNode None scenario2 = (Panic, s') ∧
        nodes s' = nodes scenario2 ∧ ll s' = ll scenario2 ∧ mux s' = false.
Proof.
  split; [reflexivity |]. split; [discriminate |]. split; [discriminate |].
  apply (RemoveNode_nil_panics scenario2); [reflexivity | discriminate | discriminate].
Defined.

(** X4: on a well-formed list with exactly one element, [RemoveNode] does
    not look at its argument: whatever node it is given (nil, a node that
    was never linked), it removes and returns the one linked element and
    reports no error. *)
Theorem RemoveNode_single_ignores_node (s : State) (e : loc) (node : ptr) :
  wf s [e] →
  ∃ s', RemoveNode node s = (Ret (Some e, None), s') ∧
        wf s' [] ∧ Size (ll s') = 0.
Proof.
  intros Hwf. pose proof Hwf as (Hc & Hs & _ & Hm).
  destruct (RemoveNode_single_chain node s [] e Hc Hm Hs) as (s' & p & tl & Hr & Hun & _).
  destruct (unlinked_wf s s' [] e [] p tl Hwf Hun) as (Hwf' & Hsz).
  exists s'. split_and!; [done | done |]. rewrite Hsz, Hs. done.
Qed.

Lemma RemoveNode_single_ignores_node_witness :
  wf scenario1 [3%positive] ∧
  ∃ s', RemoveNode (Some 99%positive) scenario1 = (Ret (Some 3%positive, None), s') ∧
        wf s' [] ∧ Size (ll s') = 0.
Proof.
  split; [exact wf_scenario1 |].
  apply (RemoveNode_single_ignores_node scenario1 3%positive (Some 99%positive)).
  exact wf_scenario1.
Defined.

Lemma set_Next_same n v : Next n = v → set_Next v n = n.
Proof. destruct n. simpl. by intros ->. Qed.

Lemma set_Prev_same n v : Prev n = v → set_Prev v n = n.
Proof. destruct n. simpl. by intros ->. Qed.

(** X5: [RemoveNode] does not check that its argument is linked.  On a
    well-formed list of three or more elements, removing the same element a
    second time succeeds again: the heap stays as the first removal left it,
    so the chain still holds the other elements, but [Size] is lowered once
    more and from then on is one less than the number of linked elements. *)
Theorem RemoveNode_twice (s : State) (l1 : list loc) (e : loc) (l2 : list loc) :
  wf s (l1 ++ e :: l2) → (3 ≤ length (l1 ++ e :: l2))%nat →
  ∃ s1 s2,
    RemoveNode (Some e) s = (Ret (Some e, None), s1) ∧
    RemoveNode (Some e) s1 = (Ret (Some e, None), s2) ∧
    nodes s2 = nodes s1 ∧
    elements s2 = l1 ++ l2 ∧
    Size (ll s2) = Z.of_nat (length (l1 ++ l2)) - 1.
Proof.
  intros Hwf Hlen. pose proof Hwf as (Hc & Hs & Hb & Hm).
  destruct (remove_chain _ _ _ _ Hc)
    as (hd & tl & p & pn & q & qn & en & Hh & Ht & Hen & Hp & Hq & Hpn & Hqn & Hpe & Hqe
        & Hpq & Hep & Heq & ? & ? & Hlast & Hhead & Hun).
  rewrite length_app in Hs, Hb, Hlen. simpl in Hs, Hb, Hlen.
  assert (Hz : (Size (ll s) =? 0) = false) by (apply Z.eqb_neq; lia).
  assert (H1 : (Size (ll s) =? 1) = false) by (apply Z.eqb_neq; lia).
  pose proof (RemoveNode_run s e en p pn q qn Hm Hz H1 Hen Hp Hq Hpn Hqn Hpq Hep) as Hr1.
  set (s1 := mkState (bypass_nodes (nodes s) p q pn qn)
               (mkList (Head (ll s)) (Tail (ll s)) (wrap32 (Size (ll s) + -1)))
               false (trace s ++ RemoveNode_events p e q)) in *.
  assert (Hsz1 : Size (ll s1) = Size (ll s) - 1) by (simpl; apply wrap32_small; lia).
  assert (Hen1 : nodes s1 !! e = Some en).
  { simpl. unfold bypass_nodes. by rewrite !lookup_insert_ne. }
  assert (Hpn1 : nodes s1 !! p = Some (set_Next (Some q) pn)).
  { simpl. unfold bypass_nodes. by rewrite lookup_insert_ne, lookup_insert_eq. }
  assert (Hqn1 : nodes s1 !! q = Some (set_Prev (Some p) qn)).
  { simpl. unfold bypass_nodes. by rewrite lookup_insert_eq. }
  assert (Hz1 : (Size (ll s1) =? 0) = false) by (apply Z.eqb_neq; lia).
  assert (H11 : (Size (ll s1) =? 1) = false) by (apply Z.eqb_neq; lia).
  pose proof (RemoveNode_run s1 e en p _ q _ eq_refl Hz1 H11 Hen1 Hp Hq Hpn1 Hqn1 Hpq Hep)
    as Hr2.
  assert (Hsame : bypass_nodes (nodes s1) p q (set_Next (Some q) pn) (set_Prev (Some p) qn)
                  = nodes s1).
  { unfold bypass_nodes.
    rewrite (set_Next_same (set_Next (Some q) pn)), (set_Prev_same (set_Prev (Some p) qn))
      by done.
    rewrite (insert_id _ p) by done. by rewrite insert_id. }
  rewrite Hsame in Hr2.
  eexists s1, _. split; [exact Hr1 |]. split; [exact Hr2 |].
  destruct (Hun (trace s ++ RemoveNode_events p e q)) as (Hc1 & _).
  fold s1 in Hc1. split_and!.
  - done.
  - apply chain_elements. destruct Hc1 as (hd1 & tl1 & ? & ? & ?). by exists hd1, tl1.
  - simpl. rewrite (wrap32_small (Size (ll s) + -1)) by lia.
    rewrite wrap32_small by lia. rewrite Hs, length_app. lia.
Qed.

Lemma RemoveNode_twice_witness :
  wf scenario3 ([5%positive] ++ 4%positive :: [3%positive]) ∧
  (3 ≤ length ([5%positive] ++ 4%positive :: [3%positive]))%nat ∧
  ∃ s1 s2,
    RemoveNode (Some 4%positive) scenario3 = (Ret (Some 4%positive, None), s1) ∧
    RemoveNode (Some 4%positive) s1 = (Ret (Some 4%positive, None), s2) ∧
    nodes s2 = nodes s1 ∧
    elements s2 = [5%positive] ++ [3%positive] ∧
    Size (ll s2) = Z.of_nat (length ([5%positive] ++ [3%positive])) - 1.
Proof.
  split; [exact wf_scenario3 |]. split; [simpl; lia |].
  apply (RemoveNode_twice scenario3 [5%positive] 4%positive [3%positive]);
    [exact wf_scenario3 | simpl; lia].
Defined.

(** ** What a call writes *)

Lemma RemoveNode_explicit s l1 e l2 :
  wf s (l1 ++ e :: l2) →
  ∃ hd tl p pn q qn en tr,
    RemoveNode (Some e) s =
      (Ret (Some e, None),
       mkState (bypass_nodes (nodes s) p q pn qn)
               (mkList (Head (ll s)) (Tail (ll s)) (wrap32 (Size (ll s) + -1)))
               false tr) ∧
    Head (ll s) = Some hd ∧ Tail (ll s) = Some tl ∧
    nodes s !! e = Some en ∧ Prev en = Some p ∧ Next en = Some q ∧
    nodes s !! p = Some pn ∧ nodes s !! q = Some qn ∧
    Next pn = Some e ∧ Prev qn = Some e ∧
    p ≠ q ∧ e ≠ p ∧ e ≠ q ∧
    last (hd :: l1) = Some p ∧ head (l2 ++ [tl]) = Some q ∧
    unlinked s
      (mkState (bypass_nodes (nodes s) p q pn qn)
               (mkList (Head (ll s)) (Tail (ll s)) (wrap32 (Size (ll s) + -1)))
               false tr)
      l1 e l2 p q.
Proof.
  intros (Hc & Hs & Hb & Hm).
  destruct (remove_chain _ _ _ _ Hc)
    as (hd & tl & p & pn & q & qn & en & Hh & Ht & Hen & Hp & Hq & Hpn & Hqn & Hpe & Hqe
        & Hpq & Hep & Heq & Hptl & Hqhd & Hlast & Hhead & Hun).
  rewrite length_app in Hs, Hb. simpl in Hs, Hb.
  assert (Hz : (Size (ll s) =? 0) = false) by (apply Z.eqb_neq; lia).
  exists hd, tl, p, pn, q, qn, en.
  destruct (decide (Size (ll s) = 1)) as [H1 | H1].
  - assert (l2 = []) as -> by (destruct l1, l2; simpl in *; try done; lia).
    simpl in Hhead. injection Hhead as <-.
    eexists. split; [| split_and!; try done; apply Hun].
    rewrite RemoveNode_single by done.
    by rewrite (RemoveLast_run (with_trace s _) tl qn e en p pn).
  - eexists. split; [| split_and!; try done; apply Hun].
    apply (RemoveNode_run s e en p pn q qn); try done. by apply Z.eqb_neq.
Qed.

(** X6: a removal writes two fields, whatever the length of the list.  On a
    well-formed list, [RemoveNode] of a linked element [e] sets the [Next]
    of its predecessor [p] and the [Prev] of its successor [q]; every other
    node of the heap, [e] included, is exactly as before. *)
Theorem RemoveNode_footprint (s : State) (l1 : list loc) (e : loc) (l2 : list loc) :
  wf s (l1 ++ e :: l2) →
  ∃ s' p q pn qn,
    RemoveNode (Some e) s = (Ret (Some e, None), s') ∧
    nodes s !! p = Some pn ∧ Next pn = Some e ∧
    nodes s !! q = Some qn ∧ Prev qn = Some e ∧
    nodes s' !! p = Some (set_Next (Some q) pn) ∧
    nodes s' !! q = Some (set_Prev (Some p) qn) ∧
    (∀ y, y ≠ p → y ≠ q → nodes s' !! y = nodes s !! y) ∧
    Head (ll s') = Head (ll s) ∧ Tail (ll s') = Tail (ll s).
Proof.
  intros Hwf.
  destruct (RemoveNode_explicit s l1 e l2 Hwf)
    as (hd & tl & p & pn & q & qn & en & tr & Hr & _ & _ & _ & _ & _ & Hpn & Hqn & Hpe & Hqe
        & Hpq & _).
  eexists _, p, q, pn, qn. split; [exact Hr |]. simpl. unfold bypass_nodes.
  split_and!; try done.
  - by rewrite lookup_insert_ne, lookup_insert_eq.
  - by rewrite lookup_insert_eq.
  - intros y Hp Hq. by rewrite !lookup_insert_ne.
Qed.

Lemma RemoveNode_footprint_witness :
  wf scenario3 ([5%positive] ++ 4%positive :: [3%positive]) ∧
  ∃ s' p q pn qn,
    RemoveNode (Some 4%positive) scenario3 = (Ret (Some 4%positive, None), s') ∧
    nodes scenario3 !! p = Some pn ∧ Next pn = Some 4%positive ∧
    nodes scenario3 !! q = Some qn ∧ Prev qn = Some 4%positive ∧
    nodes s' !! p = Some (set_Next (Some q) pn) ∧
    nodes s' !! q = Some (set_Prev (Some p) qn) ∧
    (∀ y, y ≠ p → y ≠ q → nodes s' !! y = nodes scenario3 !! y) ∧
    Head (ll s') = Head (ll scenario3) ∧ Tail (ll s') = Tail (ll scenario3).
Proof.
  split; [exact wf_scenario3 |].
  apply (RemoveNode_footprint scenario3 [5%positive] 4%positive [3%positive]).
  exact wf_scenario3.
Defined.

Lemma Insert_explicit key value ttl now s l :
  chain s l → mux s = false →
  ∃ hd tl hn x xn,
    Insert key value ttl now s =
      (Ret (Some (fresh (dom (nodes s))), None),
       mkState (Insert_nodes key value ttl now (nodes s) hd x hn xn)
               (mkList (Head (ll s)) (Tail (ll s)) (wrap32 (Size (ll s) + 1)))
               false
               (trace s ++ Insert_events (fresh (dom (nodes s))) hd x)) ∧
    Head (ll s) = Some hd ∧ Tail (ll s) = Some tl ∧
    nodes s !! hd = Some hn ∧ Next hn = Some x ∧ nodes s !! x = Some xn ∧
    Prev xn = Some hd ∧ hd ≠ x ∧
    fresh (dom (nodes s)) ≠ hd ∧ fresh (dom (nodes s)) ≠ x ∧
    head (l ++ [tl]) = Some x ∧
    dll (Insert_nodes key value ttl now (nodes s) hd x hn xn) hd
        (fresh (dom (nodes s)) :: l) tl.
Proof.
  intros (hd & tl & Hh & Ht & Hd) Hm.
  destruct (dll_Insert key value ttl now _ _ _ _ Hd)
    as (hn & x & xn & Hhn & Hnx & Hxn & Hne & Hhead & Hd' & Hpay & Hnew).
  exists hd, tl, hn, x, xn. split_and!; try done.
  - by eapply Insert_run.
  - destruct Hd as (_ & Hl & _). destruct (snoc_is_cons l tl) as (x' & p2 & E).
    rewrite E in Hhead, Hl. simpl in Hhead. injection Hhead as ->.
    destruct Hl as (_ & Hp & _). apply prevOf_Some in Hp as (xn' & Hxn' & Hp).
    rewrite Hxn in Hxn'. by simplify_eq.
  - by eapply fresh_ne.
  - by eapply fresh_ne.
Qed.

(** X7: on any chain with the lock free, [Insert] returns a node at an
    address that was unused; the node holds the key, value, TTL and clock
    reading it was given, its [Prev] is the head sentinel and its [Next] the
    former first node of the chain (the tail sentinel when the list was
    empty).  Besides the new node only the head sentinel and that former
    first node are written, and the new element is first in the chain. *)
Theorem Insert_links_new_node (key : string) (value : Any) (ttl now : Z)
    (s : State) (l : list loc) :
  chain s l → mux s = false →
  ∃ a s' hd tl x,
    Insert key value ttl now s = (Ret (Some a, None), s') ∧
    nodes s !! a = None ∧
    Head (ll s) = Some hd ∧ Tail (ll s) = Some tl ∧ head (l ++ [tl]) = Some x ∧
    nodes s' !! a = Some (mkNode key value ttl now (Some hd) (Some x)) ∧
    nextOf (nodes s') hd = Some a ∧ prevOf (nodes s') x = Some a ∧
    (∀ y, y ≠ a → y ≠ hd → y ≠ x → nodes s' !! y = nodes s !! y) ∧
    elements s' = a :: l.
Proof.
  intros Hc Hm.
  destruct (Insert_explicit key value ttl now s l Hc Hm)
    as (hd & tl & hn & x & xn & Hr & Hh & Ht & Hhn & Hnx & Hxn & Hpx & Hne & Ha1 & Ha2
        & Hhead & Hd).
  eexists _, _, hd, tl, x. split; [exact Hr |]. simpl. unfold Insert_nodes.
  split_and!; try done.
  - apply fresh_lookup.
  - rewrite lookup_insert_ne by done. rewrite lookup_insert_ne by done.
    apply lookup_insert_eq.
  - links.
  - links.
  - intros y H1 H2 H3. by rewrite !lookup_insert_ne.
  - apply chain_elements. exists hd, tl. simpl. done.
Qed.

Lemma Insert_links_new_node_witness :
  chain scenario2 [4%positive; 3%positive] ∧ mux scenario2 = false ∧
  ∃ a s' hd tl x,
    Insert "c" (VInt 3) 60 103 scenario2 = (Ret (Some a, None), s') ∧
    nodes scenario2 !! a = None ∧
    Head (ll scenario2) = Some hd ∧ Tail (ll scenario2) = Some tl ∧
    head ([4%positive; 3%positive] ++ [tl]) = Some x ∧
    nodes s' !! a = Some (mkNode "c" (VInt 3) 60 103 (Some hd) (Some x)) ∧
    nextOf (nodes s') hd = Some a ∧ prevOf (nodes s') x = Some a ∧
    (∀ y, y ≠ a → y ≠ hd → y ≠ x → nodes s' !! y = nodes scenario2 !! y) ∧
    elements s' = a :: [4%positive; 3%positive].
Proof.
  split; [exact (wf_chain _ _ wf_scenario2) |]. split; [reflexivity |].
  apply (Insert_links_new_node "c" (VInt 3) 60 103 scenario2 [4%positive; 3%positive]);
    [exact (wf_chain _ _ wf_scenario2) | reflexivity].
Defined.

(** ** How the calls compose *)

Lemma set_Next_set_Next n v w : Next n = w → set_Next w (set_Next v n) = n.
Proof. destruct n. simpl. by intros ->. Qed.

Lemma set_Prev_set_Prev n v w : Prev n = w → set_Prev w (set_Prev v n) = n.
Proof. destruct n. simpl. by intros ->. Qed.

(** X8: [Insert] followed by [RemoveNode] of the node it returned is a round
    trip.  On a well-formed list with room for one more element, the two
    calls succeed, every node that existed before is exactly as it was, the
    list object is as it was (size included), and the chain holds the same
    elements; the only difference is the new, now unlinked, node. *)
Theorem Insert_RemoveNode_roundtrip (key : string) (value : Any) (ttl now : Z)
    (s : State) (l : list loc) :
  wf s l → Z.of_nat (length l) + 1 < 2 ^ 31 →
  ∃ a s1 s2,
    Insert key value ttl now s = (Ret (Some a, None), s1) ∧
    RemoveNode (Some a) s1 = (Ret (Some a, None), s2) ∧
    nodes s !! a = None ∧
    (∀ y, y ≠ a → nodes s2 !! y = nodes s !! y) ∧
    ll s2 = ll s ∧
    wf s2 l ∧ elements s2 = l.
Proof.
  intros Hwf Hlt. pose proof Hwf as (Hc & Hs & Hb & Hm).
  destruct (Insert_explicit key value ttl now s l Hc Hm)
    as (hd & tl & hn & x & xn & Hr & Hh & Ht & Hhn & Hnx & Hxn & Hpx & Hne & Ha1 & Ha2
        & Hhead & Hd).
  set (a := fresh (dom (nodes s))) in *.
  set (s1 := mkState (Insert_nodes key value ttl now (nodes s) hd x hn xn)
               (mkList (Head (ll s)) (Tail (ll s)) (wrap32 (Size (ll s) + 1)))
               false (trace s ++ Insert_events a hd x)) in *.
  assert (Hwf1 : wf s1 ([] ++ a :: l)).
  { split_and!; [by exists hd, tl | | simpl; lia | done].
    simpl. rewrite wrap32_small; lia. }
  destruct (RemoveNode_explicit s1 [] a l Hwf1)
    as (hd' & tl' & p & pn & q & qn & en & tr & Hr2 & _ & _ & Hen & Hp & Hq & Hpn & Hqn
        & _ & _ & Hpq & _ & _ & _ & _ & Hun).
  assert (Hena : nodes s1 !! a = Some (mkNode key value ttl now (Some hd) (Some x))).
  { simpl. unfold Insert_nodes. fold a.
    rewrite lookup_insert_ne by done. rewrite lookup_insert_ne by done.
    apply lookup_insert_eq. }
  rewrite Hena in Hen. injection Hen as <-. simpl in Hp, Hq.
  injection Hp as <-. injection Hq as <-.
  assert (pn = set_Next (Some a) hn) as ->.
  { simpl in Hpn. unfold Insert_nodes in Hpn. fold a in Hpn.
    rewrite lookup_insert_ne, lookup_insert_eq in Hpn by done. by simplify_eq. }
  assert (qn = set_Prev (Some a) xn) as ->.
  { simpl in Hqn. unfold Insert_nodes in Hqn. fold a in Hqn.
    rewrite lookup_insert_eq in Hqn. by simplify_eq. }
  destruct (unlinked_wf _ _ _ _ _ _ _ Hwf1 Hun) as (Hwf2 & Hsz2).
  eexists a, s1, _. split; [exact Hr |]. split; [exact Hr2 |].
  split_and!.
  - apply fresh_lookup.
  - intros y Hy. simpl. unfold bypass_nodes, Insert_nodes. fold a.
    destruct (decide (y = x)) as [-> | Hyx].
    { rewrite lookup_insert_eq, set_Prev_set_Prev by done. done. }
    rewrite lookup_insert_ne by done.
    destruct (decide (y = hd)) as [-> | Hyh].
    { rewrite lookup_insert_eq, set_Next_set_Next by done. done. }
    by rewrite !lookup_insert_ne.
  - simpl. rewrite wrap32_add. replace (Size (ll s) + 1 + -1) with (Size (ll s)) by lia.
    rewrite wrap32_small by lia. by destruct (ll s).
  - exact Hwf2.
  - apply chain_elements, wf_chain, Hwf2.
Qed.

Lemma Insert_RemoveNode_roundtrip_witness :
  wf scenario2 [4%positive; 3%positive] ∧
  Z.of_nat (length [4%positive; 3%positive]) + 1 < 2 ^ 31 ∧
  ∃ a s1 s2,
    Insert "c" (VInt 3) 60 103 scenario2 = (Ret (Some a, None), s1) ∧
    RemoveNode (Some a) s1 = (Ret (Some a, None), s2) ∧
    nodes scenario2 !! a = None ∧
    (∀ y, y ≠ a → nodes s2 !! y = nodes scenario2 !! y) ∧
    ll s2 = ll scenario2 ∧
    wf s2 [4%positive; 3%positive] ∧ elements s2 = [4%positive; 3%positive].
Proof.
  split; [exact wf_scenario2 |]. split; [reflexivity |].
  apply (Insert_RemoveNode_roundtrip "c" (VInt 3) 60 103 scenario2 [4%positive; 3%positive]);
    [exact wf_scenario2 | reflexivity].
Defined.

(** X9: refreshing an entry, [RemoveNode] followed by [Insert], moves it to
    the front.  On a well-formed list both calls succeed, the size is what
    it was, and the chain is the new node followed by the other elements in
    their old order.  The new node is not the node that was removed: a
    reference to the old node no longer names a linked element. *)
Theorem refresh_moves_to_front (key : string) (value : Any) (ttl now : Z)
    (s : State) (l1 : list loc) (e : loc) (l2 : list loc) :
  wf s (l1 ++ e :: l2) →
  ∃ s1 a s2,
    RemoveNode (Some e) s = (Ret (Some e, None), s1) ∧
    Insert key value ttl now s1 = (Ret (Some a, None), s2) ∧
    a ≠ e ∧
    wf s2 (a :: l1 ++ l2) ∧
    elements s2 = a :: l1 ++ l2 ∧
    Size (ll s2) = Size (ll s).
Proof.
  intros Hwf.
  destruct (RemoveNode_wf s l1 e l2 Hwf) as (s1 & p & q & Hr & Hun).
  destruct (unlinked_wf _ _ _ _ _ _ _ Hwf Hun) as (Hwf1 & Hsz1).
  pose proof Hwf as (_ & Hs & Hb & _).
  rewrite length_app in Hs, Hb. simpl in Hs, Hb.
  pose proof Hwf1 as (Hc1 & Hs1 & _ & Hm1).
  destruct (Insert_chain key value ttl now s1 _ Hc1 Hm1)
    as (s2 & hd & x & Hr2 & Hc2 & Hll2 & Hm2 & _ & _ & _ & Hf & _).
  assert (Hsz2 : Size (ll s2) = Size (ll s)).
  { rewrite Hll2. simpl. rewrite wrap32_small; lia. }
  exists s1, (fresh (dom (nodes s1))), s2. split_and!; try done.
  - intros Hae. destruct Hun as (_ & _ & _ & _ & Hk & Hp & _).
    apply prevOf_Some in Hp as (en & Hen & _).
    rewrite Hae, Hk, Hen in Hf. done.
  - split_and!; [done | | | done].
    + rewrite Hsz2, Hs. simpl. rewrite !length_app. simpl. lia.
    + simpl. rewrite length_app. lia.
  - by apply chain_elements.
Qed.

Lemma refresh_moves_to_front_witness :
  wf scenario3 ([5%positive; 4%positive] ++ 3%positive :: []) ∧
  ∃ s1 a s2,
    RemoveNode (Some 3%positive) scenario3 = (Ret (Some 3%positive, None), s1) ∧
    Insert "a" (VInt 1) 60 104 s1 = (Ret (Some a, None), s2) ∧
    a ≠ 3%positive ∧
    wf s2 (a :: [5%positive; 4%positive] ++ []) ∧
    elements s2 = a :: [5%positive; 4%positive] ++ [] ∧
    Size (ll s2) = Size (ll scenario3).
Proof.
  split; [exact wf_scenario3 |].
  apply (refresh_moves_to_front "a" (VInt 1) 60 104 scenario3
           [5%positive; 4%positive] 3%positive []).
  exact wf_scenario3.
Defined.

Lemma drain_wf l : ∀ s,
  wf s l →
  returned s (replicate (length l) OpRemoveLast)
    = (λ a, Ret (Some a, None)) <$> reverse l ∧
  wf (run (replicate (length l) OpRemoveLast) s) [].
Proof.
  induction l as [|e l IH] using rev_ind; intros s Hwf; [done |].
  destruct (RemoveLast_wf s l e Hwf) as (s' & p & tl & Hr & Hun & _).
  destruct (unlinked_wf _ _ _ _ _ _ _ Hwf Hun) as (Hwf' & _).
  rewrite app_nil_r in Hwf'.
  destruct (IH s' Hwf') as (Hret & Hfin).
  rewrite length_app, Nat.add_comm.
  change (length [e] + length l)%nat with (S (length l)).
  change (replicate (S (length l)) OpRemoveLast)
    with (OpRemoveLast :: replicate (length l) OpRemoveLast).
  rewrite run_cons. cbn [returned exec]. rewrite Hr. cbn [fst snd].
  rewrite reverse_snoc, fmap_cons. by rewrite Hret.
Qed.

(** X10: the list is a queue.  After fewer than 2^31 [Insert] calls on a
    fresh list, as many [RemoveLast] calls all succeed and return the
    inserted nodes in the order of their insertion, each carrying the key it
    was inserted with; they leave the list empty with size 0, and one more
    [RemoveLast] fails with EmptyList. *)
Theorem inserts_then_drain (t1 t2 : Z) (heap : gmap loc Node)
    (calls : list InsertCall) :
  Z.of_nat (length calls) < 2 ^ 31 →
  ∃ order,
    length order = length calls ∧
    keyed (nodes (run (insert_op <$> calls) (InitList t1 t2 heap))) order
          (ic_key <$> calls) ∧
    returned (run (insert_op <$> calls) (InitList t1 t2 heap))
             (replicate (length calls) OpRemoveLast)
      = (λ a, Ret (Some a, None)) <$> order ∧
    elements (run (replicate (length calls) OpRemoveLast)
                (run (insert_op <$> calls) (InitList t1 t2 heap))) = [] ∧
    Size (ll (run (replicate (length calls) OpRemoveLast)
                (run (insert_op <$> calls) (InitList t1 t2 heap)))) = 0 ∧
    fst (RemoveLast (run (replicate (length calls) OpRemoveLast)
                       (run (insert_op <$> calls) (InitList t1 t2 heap))))
      = Ret (None, Some EmptyList).
Proof.
  intros Hlt.
  destruct (keyed_InitList t1 t2 heap) as (hd & tl & Hh & Ht & Hk).
  destruct (hinv_InitList t1 t2 heap) as (Hinv & _).
  destruct (run_inserts calls _ _ _ _ _ Hinv Hh Ht Hk)
    as (l & (Hc & Hs & Hm) & Hh' & Ht' & Hlen & Hk').
  remember (run (insert_op <$> calls) (InitList t1 t2 heap)) as s eqn:Es. clear Es.
  simpl in Hlen. rewrite Nat.add_0_r in Hlen.
  assert (Hwf : wf s l).
  { split_and!; [done | | lia | done]. rewrite Hs. apply wrap32_small. lia. }
  destruct (drain_wf l s Hwf) as (Hret & Hwf0). rewrite Hlen in Hret, Hwf0.
  exists (reverse l). split_and!.
  - by rewrite length_reverse.
  - rewrite app_nil_r in Hk'. apply Forall2_cons in Hk' as [_ Hk'].
    apply Forall2_app_inv in Hk' as [Hk' _]; [| by rewrite length_reverse, length_fmap].
    apply Forall2_reverse in Hk'. by rewrite reverse_involutive in Hk'.
  - done.
  - by apply chain_elements, wf_chain.
  - by destruct Hwf0 as (_ & -> & _).
  - destruct Hwf0 as (_ & Hs0 & _ & Hm0). by rewrite RemoveLast_empty.
Qed.

Lemma inserts_then_drain_witness :
  let calls := [mkCall "a" (VInt 1) 60 101; mkCall "b" (VInt 2) 60 102] in
  Z.of_nat (length calls) < 2 ^ 31 ∧
  ∃ order,
    length order = length calls ∧
    keyed (nodes (run (insert_op <$> calls) (InitList 100 100 ∅))) order
          (ic_key <$> calls) ∧
    returned (run (insert_op <$> calls) (InitList 100 100 ∅))
             (replicate (length calls) OpRemoveLast)
      = (λ a, Ret (Some a, None)) <$> order ∧
    elements (run (replicate (length calls) OpRemoveLast)
                (run (insert_op <$> calls) (InitList 100 100 ∅))) = [] ∧
    Size (ll (run (replicate (length calls) OpRemoveLast)
                (run (insert_op <$> calls) (InitList 100 100 ∅)))) = 0 ∧
    fst (RemoveLast (run (replicate (length calls) OpRemoveLast)
                       (run (insert_op <$> calls) (InitList 100 100 ∅))))
      = Ret (None, Some EmptyList).
Proof.
  intros calls. split; [reflexivity |].
  apply (inserts_then_drain 100 100 ∅ calls). reflexivity.
Defined.

(** ** The sentinels *)

Lemma ops_ok_app ops1 : ∀ s ops2,
  ops_ok s (ops1 ++ ops2) = ops_ok s ops1 && ops_ok (run ops1 s) ops2.
Proof.
  induction ops1 as [|op ops1 IH]; intros s ops2; [done |].
  rewrite run_cons. cbn [app ops_ok]. by rewrite IH, andb_assoc.
Qed.

Lemma exec_result_inv op s l r err :
  inv s l → op_ok s op = true →
  fst (exec op s) = Ret (Some r, err) → r ∈ l ∨ nodes s !! r = None.
Proof.
  intros Hinv Hok. pose proof Hinv as (Hc & Hs & Hm).
  destruct op as [key value ttl now | | node |]; simpl.
  - destruct (Insert_chain key value ttl now s l Hc Hm)
      as (s' & hd & x & Hr & _ & _ & _ & _ & _ & _ & Hf & _).
    rewrite Hr. simpl. intros [= <- _]. by right.
  - destruct (decide (Size (ll s) = 0)) as [Hz | Hz].
    + by rewrite RemoveLast_empty.
    + destruct (inv_nonempty s l Hinv Hz) as (l0 & e & ->).
      destruct (RemoveLast_chain s l0 e Hc Hm Hz) as (s' & p & tl & Hr & _).
      rewrite Hr. simpl. intros [= <- _]. left. set_solver.
  - destruct node as [e |]; [| done]. simpl in Hok.
    apply bool_decide_eq_true in Hok. rewrite (chain_elements s l Hc) in Hok.
    pose proof Hok as (l1 & l2 & ->)%list_elem_of_split.
    destruct (decide (Size (ll s) = 0)) as [Hz | Hz].
    { by rewrite RemoveNode_empty. }
    destruct (decide (Size (ll s) = 1)) as [H1 | H1].
    + destruct (inv_nonempty s _ Hinv Hz) as (l0 & e' & E). rewrite E in *.
      destruct (RemoveNode_single_chain (Some e) s l0 e' Hc Hm H1) as (s' & p & tl & Hr & _).
      rewrite Hr. simpl. intros [= <- _]. left. set_solver.
    + destruct (RemoveNode_chain s l1 e l2 Hc Hm Hz H1) as (s' & p & q & Hr & _).
      rewrite Hr. simpl. intros [= <- _]. by left.
  - destruct (decide (Size (ll s) = 0)) as [Hz | Hz].
    + by rewrite GetLastNode_empty.
    + destruct (inv_nonempty s l Hinv Hz) as (l0 & e & ->).
      destruct (GetLastNode_chain s l0 e Hc Hm Hz) as (tl & _ & Hr).
      rewrite Hr. simpl. intros [= <- _]. left. set_solver.
Qed.

(** X11: the sentinels are never handed to a caller.  In every state
    reached from a fresh list by calls that respect the contract of
    [RemoveNode], a further such call that returns a node returns neither
    [ll.Head] nor [ll.Tail]. *)
Theorem sentinels_never_returned (t1 t2 : Z) (heap : gmap loc Node)
    (ops : list Op) (op : Op) (r : loc) (err : error) :
  ops_ok (InitList t1 t2 heap) (ops ++ [op]) = true →
  fst (exec op (run ops (InitList t1 t2 heap))) = Ret (Some r, err) →
  Head (ll (run ops (InitList t1 t2 heap))) ≠ Some r ∧
  Tail (ll (run ops (InitList t1 t2 heap))) ≠ Some r.
Proof.
  intros Hok Hr. rewrite ops_ok_app in Hok.
  apply andb_true_iff in Hok as [Hok1 Hok2].
  simpl in Hok2. rewrite andb_true_r in Hok2.
  destruct (reachable_hinv t1 t2 heap ops Hok1) as (l & Hinv & _).
  destruct (exec_result_inv _ _ _ _ _ Hinv Hok2 Hr) as [Hin | Hnone].
  - destruct Hinv as ((hd & tl & Hh & Ht & Hnd & _) & _).
    rewrite Hh, Ht.
    apply NoDup_cons in Hnd as [Hhd Hnd]. apply NoDup_app in Hnd as (_ & Hd & _).
    split; intros [= ->].
    + apply Hhd. set_solver.
    + apply (Hd r Hin). set_solver.
  - destruct Hinv as ((hd & tl & Hh & Ht & _ & Hl & _) & _).
    rewrite Hh, Ht.
    split; intros [= ->];
      (destruct (linked_alloc _ _ r Hl) as [n Hn];
       [simpl; rewrite length_app; simpl; lia | set_solver | by rewrite Hnone in Hn]).
Qed.

Lemma sentinels_never_returned_witness :
  let ops := [OpInsert "a" (VInt 1) 60 101; OpInsert "b" (VInt 2) 60 102] in
  ops_ok (InitList 100 100 ∅) (ops ++ [OpGetLastNode]) = true ∧
  fst (exec OpGetLastNode (run ops (InitList 100 100 ∅))) = Ret (Some 3%positive, None) ∧
  Head (ll (run ops (InitList 100 100 ∅))) ≠ Some 3%positive ∧
  Tail (ll (run ops (InitList 100 100 ∅))) ≠ Some 3%positive.
Proof.
  intros ops. split; [reflexivity |]. split; [reflexivity |].
  apply (sentinels_never_returned 100 100 ∅ ops OpGetLastNode 3%positive None);
    reflexivity.
Defined.

Lemma RemoveNode_head_run s hd hn :
  mux s = false → (Size (ll s) =? 0) = false → (Size (ll s) =? 1) = false →
  nodes s !! hd = Some hn → Prev hn = None →
  RemoveNode (Some hd) s =
    (Panic, with_trace s [EvLock; EvLoad FSize; EvLoad FSize; EvUnlock; EvLock;
                          EvLoad (FPrev hd); EvLoad (FNext hd); EvLoad (FNext hd);
                          EvUnlock]).
Proof. intros Hm Hz H1 Hhn Hp. go. Qed.

Lemma RemoveNode_tail_run s tl tn e en :
  mux s = false → (Size (ll s) =? 0) = false → (Size (ll s) =? 1) = false →
  nodes s !! tl = Some tn → Prev tn = Some e → Next tn = None →
  nodes s !! e = Some en → e ≠ tl →
  RemoveNode (Some tl) s =
    (Panic,
     mkState (<[e := set_Next None en]> (nodes s)) (ll s) false
             (trace s ++ [EvLock; EvLoad FSize; EvLoad FSize; EvUnlock; EvLock;
                          EvLoad (FPrev tl); EvLoad (FNext tl); EvLoad (FNext tl);
                          EvStore (FNext e); EvLoad (FPrev tl); EvUnlock])).
Proof. intros Hm Hz H1 Htn Hp Hn Hen Hne. go. Qed.

(** X12: [RemoveNode] given a sentinel.  On a well-formed list of two or
    more elements, [RemoveNode] of the head sentinel panics (its [Prev] is
    nil) before anything is written.  [RemoveNode] of the tail sentinel
    panics too, but only after it has stored the tail's nil [Next] into the
    last element: the forward chain is cut there and a walk from head no
    longer reaches the tail sentinel.  In both cases the size is not
    changed and the lock is released. *)
Theorem RemoveNode_of_sentinel (s : State) (l : list loc) (e : loc) :
  wf s (l ++ [e]) → (2 ≤ length (l ++ [e]))%nat →
  ∃ hd tl,
    Head (ll s) = Some hd ∧ Tail (ll s) = Some tl ∧
    (∃ s', RemoveNode (Some hd) s = (Panic, s') ∧
           nodes s' = nodes s ∧ ll s' = ll s ∧ mux s' = false) ∧
    (∃ s', RemoveNode (Some tl) s = (Panic, s') ∧
           nextOf (nodes s) e = Some tl ∧ nextOf (nodes s') e = None ∧
           (∀ y, y ≠ e → nodes s' !! y = nodes s !! y) ∧
           ll s' = ll s ∧ mux s' = false ∧
           walk_next s' = Some (hd :: l ++ [e])).
Proof.
  intros Hwf Hlen. pose proof Hwf as (Hc & Hs & Hb & Hm).
  destruct (remove_chain _ _ _ _ Hc)
    as (hd & tl & p & pn & q & tn & en & Hh & Ht & Hen & Hp & Hq & Hpn & Htn & Hpe & Hqe
        & Hpq & Hep & Heq & Hptl & Hqhd & Hlast & Hhead & Hun).
  simpl in Hhead. injection Hhead as <-.
  rewrite length_app in Hs, Hb, Hlen. simpl in Hs, Hb, Hlen.
  assert (Hz : (Size (ll s) =? 0) = false) by (apply Z.eqb_neq; lia).
  assert (H1 : (Size (ll s) =? 1) = false) by (apply Z.eqb_neq; lia).
  destruct Hc as (hd' & tl' & Hh' & Ht' & Hnd & Hl & Hphd & Hntl).
  rewrite Hh in Hh'. rewrite Ht in Ht'. simplify_eq.
  assert (Hhn : ∃ hn, nodes s !! hd' = Some hn ∧ Prev hn = None).
  { destruct (linked_alloc _ _ hd' Hl) as [hn Hhn];
      [simpl; rewrite length_app; simpl; lia | set_solver |].
    exists hn. split; [done |]. by rewrite (prevOf_lookup _ _ _ Hhn) in Hphd. }
  destruct Hhn as (hn & Hhn & Hphn).
  assert (Hntn : Next tn = None) by (by rewrite (nextOf_lookup _ _ _ Htn) in Hntl).
  exists hd', tl'. split_and!; [done | done | |].
  - eexists. split; [by eapply RemoveNode_head_run |]. by simpl.
  - eexists. split; [by eapply (RemoveNode_tail_run s tl' tn e en) |].
    assert (Hlk : linked (<[e:=set_Next None en]> (nodes s)) (hd' :: l ++ [e])).
    { replace (hd' :: (l ++ [e]) ++ [tl']) with ((hd' :: l) ++ e :: [tl']) in Hl
        by (by rewrite <- app_assoc).
      apply linked_app in Hl as [Hl _].
      eapply linked_frame; [exact Hl | |].
      - change ((hd' :: l) ++ [e]) with (hd' :: l ++ [e]).
        replace (hd' :: l ++ [e]) with ((hd' :: l) ++ [e]) by done.
        rewrite removelast_last. intros y Hy.
        assert (e ≠ y).
        { intros ->. apply NoDup_cons in Hnd as [Hhd Hnd].
          rewrite <- app_assoc in Hnd.
          apply elem_of_cons in Hy as [-> | Hy]; [set_solver |].
          apply NoDup_app in Hnd as (_ & Hd & _). apply (Hd y Hy). set_solver. }
        links.
      - intros y Hy. links. by rewrite (prevOf_lookup _ _ _ Hen). }
    simpl. split_and!; try done.
    + by rewrite (nextOf_lookup _ _ _ Hen).
    + links.
    + intros y Hy. by rewrite lookup_insert_ne.
    + unfold walk_next. simpl. rewrite Hh.
      apply walk_next_linked; [exact Hlk | links |].
      assert (Hsz : (length (hd' :: (l ++ [e]) ++ [tl']) ≤ size (nodes s))%nat).
      { apply NoDup_alloc_length; [done |]. intros y Hy.
        eapply linked_alloc; [done | simpl; rewrite !length_app; simpl; lia | done]. }
      simpl in Hsz. rewrite !length_app in Hsz. simpl in Hsz.
      rewrite map_size_insert_Some by done. lia.
Qed.

Lemma RemoveNode_of_sentinel_witness :
  wf scenario2 ([4%positive] ++ [3%positive]) ∧
  (2 ≤ length ([4%positive] ++ [3%positive]))%nat ∧
  ∃ hd tl,
    Head (ll scenario2) = Some hd ∧ Tail (ll scenario2) = Some tl ∧
    (∃ s', RemoveNode (Some hd) scenario2 = (Panic, s') ∧
           nodes s' = nodes scenario2 ∧ ll s' = ll scenario2 ∧ mux s' = false) ∧
    (∃ s', RemoveNode (Some tl) scenario2 = (Panic, s') ∧
           nextOf (nodes scenario2) 3%positive = Some tl ∧
           nextOf (nodes s') 3%positive = None ∧
           (∀ y, y ≠ 3%positive → nodes s' !! y = nodes scenario2 !! y) ∧
           ll s' = ll scenario2 ∧ mux s' = false ∧
           walk_next s' = Some (hd :: [4%positive] ++ [3%positive])).
Proof.
  split; [exact wf_scenario2 |]. split; [simpl; lia |].
  apply (RemoveNode_of_sentinel scenario2 [4%positive] 3%positive);
    [exact wf_scenario2 | simpl; lia].
Defined.

(** X13: [InitList] takes two addresses that were unused, different from
    each other, for its sentinels, and leaves every node that the heap
    already held exactly as it was. *)
Theorem InitList_allocates_two (t1 t2 : Z) (heap : gmap loc Node) :
  ∃ hd tl,
    Head (ll (InitList t1 t2 heap)) = Some hd ∧
    Tail (ll (InitList t1 t2 heap)) = Some tl ∧
    hd ≠ tl ∧ heap !! hd = None ∧ heap !! tl = None ∧
    (∀ y n, heap !! y = Some n → nodes (InitList t1 t2 heap) !! y = Some n) ∧
    size (nodes (InitList t1 t2 heap)) = S (S (size heap)).
Proof.
  destruct (InitList_nodes t1 t2 heap) as (Hne & Hll & Hhd & Htl & _ & _ & Hrest).
  assert (Hfh : heap !! fresh (dom heap) = None) by apply fresh_lookup.
  pose proof (fresh_lookup (<[fresh (dom heap) := mkNode "" (VString "") (-1) t1 None None]> heap))
    as Hft.
  set (hd := fresh (dom heap)) in *.
  set (tl := fresh (dom (<[hd := mkNode "" (VString "") (-1) t1 None None]> heap))) in *.
  rewrite lookup_insert_ne in Hft by done.
  exists hd, tl. rewrite Hll. split_and!; try done.
  - intros y n Hy. rewrite Hrest; [done | |]; intros ->; congruence.
  - unfold InitList. fold hd. fold tl. cbn [nodes Head Tail].
    rewrite <- !(size_dom (D := gset loc)), !dom_alter_L, !size_dom.
    rewrite map_size_insert_None.
    + by rewrite map_size_insert_None.
    + by rewrite lookup_insert_ne.
Qed.

(** ** Stores happen under the lock *)

Lemma writes_guarded_app b evs1 evs2 :
  writes_guarded b (evs1 ++ evs2)
  = writes_guarded b evs1 && writes_guarded (held_after b evs1) evs2.
Proof.
  revert b. induction evs1 as [|e evs1 IH]; intros b; [done |].
  destruct e as [| | a | f | f]; simpl; rewrite ?IH; try done.
  by rewrite andb_assoc.
Qed.

Lemma held_after_app b evs1 evs2 :
  held_after b (evs1 ++ evs2) = held_after (held_after b evs1) evs2.
Proof.
  revert b. induction evs1 as [|e evs1 IH]; intros b; [done |].
  destruct e; simpl; by rewrite ?IH.
Qed.

Lemma write_triple_bind {A B} (m : M A) (f : A → M B) b b1 :
  write_triple b m → lock_triple b m b1 b1 → (∀ a, write_triple b1 (f a)) →
  write_triple b (bind m f).
Proof.
  intros Hm Hl Hf s Hs. unfold bind.
  destruct (Hm s Hs) as (evs1 & Ht1 & Hg1 & Hh1). specialize (Hl s Hs).
  destruct (m s) as [[a | |] s1]; [| by exists evs1 | by exists evs1].
  simpl in *. destruct (Hf a s1 Hl) as (evs2 & Ht2 & Hg2 & Hh2).
  exists (evs1 ++ evs2). split_and!.
  - by rewrite Ht2, Ht1, app_assoc.
  - rewrite writes_guarded_app, Hg1, Hh1, Hl. done.
  - rewrite held_after_app, Hh1, Hl. done.
Qed.

Lemma write_triple_defer {A} (body : M A) :
  write_triple true body → lock_triple true body true true →
  write_triple true (with_defer unlock body).
Proof.
  intros Hb Hl s Hs. unfold with_defer, unlock.
  destruct (Hb s Hs) as (evs & Ht & Hg & Hh). specialize (Hl s Hs).
  destruct (body s) as [[a | |] s1]; [| | done]; simpl in *; rewrite Hl; simpl;
    (exists (evs ++ [EvUnlock]); split_and!;
     [ by rewrite Ht, app_assoc
     | by rewrite writes_guarded_app, Hg
     | by rewrite held_after_app ]).
Qed.

Ltac one_event e :=
  intros s Hs; exists [e]; simpl; by rewrite ?Hs.

Ltac no_event :=
  intros s Hs; exists []; simpl; by rewrite ?app_nil_r, ?Hs.

Lemma write_triple_lock : write_triple false lock.
Proof. intros s Hs. unfold lock. rewrite Hs. by exists [EvLock]. Qed.

Lemma write_triple_unlock : write_triple true unlock.
Proof. intros s Hs. unfold unlock. rewrite Hs. by exists [EvUnlock]. Qed.

Lemma write_triple_ret {A} (a : A) b : write_triple b (ret a).
Proof. no_event. Qed.

Lemma write_triple_alloc n b : write_triple b (alloc n).
Proof. intros s Hs. by exists [EvAlloc (fresh (dom (nodes s)))]. Qed.

Lemma write_triple_load_Head b : write_triple b load_Head.
Proof. intros s Hs. by exists [EvLoad FHead]. Qed.

Lemma write_triple_load_Tail b : write_triple b load_Tail.
Proof. intros s Hs. by exists [EvLoad FTail]. Qed.

Lemma write_triple_load_Size b : write_triple b load_Size.
Proof. intros s Hs. by exists [EvLoad FSize]. Qed.

Lemma write_triple_add_Size d : write_triple true (add_Size d).
Proof. intros s Hs. by exists [EvLoad FSize; EvStore FSize]. Qed.

Lemma write_triple_load_Prev p b : write_triple b (load_Prev p).
Proof.
  intros s Hs. unfold load_Prev. destruct p as [a|]; [| by exists []; rewrite app_nil_r].
  destruct (nodes s !! a); [by exists [EvLoad (FPrev a)] | by exists []; rewrite app_nil_r].
Qed.

Lemma write_triple_load_Next p b : write_triple b (load_Next p).
Proof.
  intros s Hs. unfold load_Next. destruct p as [a|]; [| by exists []; rewrite app_nil_r].
  destruct (nodes s !! a); [by exists [EvLoad (FNext a)] | by exists []; rewrite app_nil_r].
Qed.

Lemma write_triple_store_Prev p v : write_triple true (store_Prev p v).
Proof.
  intros s Hs. unfold store_Prev. destruct p as [a|]; [| by exists []; rewrite app_nil_r].
  destruct (nodes s !! a); [by exists [EvStore (FPrev a)] | by exists []; rewrite app_nil_r].
Qed.

Lemma write_triple_store_Next p v : write_triple true (store_Next p v).
Proof.
  intros s Hs. unfold store_Next. destruct p as [a|]; [| by exists []; rewrite app_nil_r].
  destruct (nodes s !! a); [by exists [EvStore (FNext a)] | by exists []; rewrite app_nil_r].
Qed.

Ltac write_steps :=
  repeat first
    [ apply write_triple_ret
    | apply write_triple_lock
    | apply write_triple_unlock
    | apply write_triple_alloc
    | apply write_triple_load_Head
    | apply write_triple_load_Tail
    | apply write_triple_load_Size
    | apply write_triple_add_Size
    | apply write_triple_load_Prev
    | apply write_triple_load_Next
    | apply write_triple_store_Prev
    | apply write_triple_store_Next
    | apply write_triple_defer; [| solve [lock_steps]]
    | eapply write_triple_bind; [| solve [lock_steps] | intros ?]
    | match goal with |- write_triple _ (if ?c then _ else _) => destruct c end ].

Lemma write_triple_Insert key value ttl now :
  write_triple false (Insert key value ttl now).
Proof. unfold Insert. write_steps. Qed.

Lemma write_triple_RemoveLast : write_triple false RemoveLast.
Proof. unfold RemoveLast. write_steps. Qed.

Lemma write_triple_GetLastNode : write_triple false GetLastNode.
Proof. unfold GetLastNode. write_steps. Qed.

Lemma write_triple_RemoveNode node : write_triple false (RemoveNode node).
Proof.
  unfold RemoveNode. pose proof write_triple_RemoveLast as HW.
  pose proof lock_triple_RemoveLast as HL.
  remember RemoveLast as RL eqn:E. clear E.
  write_steps.
  eapply write_triple_bind; [exact HW | exact HL | intros ?; apply write_triple_ret].
Qed.

(** X14: whatever the heap and the list object hold, a call made with the
    lock free only extends the trace, and every store it makes, to a [Prev],
    to a [Next] or to [Size], is made while it holds the lock. *)
Theorem stores_under_lock (op : Op) (s : State) :
  mux s = false →
  trace (snd (exec op s)) = trace s ++ events_of (exec op) s ∧
  writes_guarded false (events_of (exec op) s) = true.
Proof.
  intros Hs.
  assert (H : write_triple false (exec op)).
  { destruct op; simpl.
    - apply write_triple_Insert.
    - apply write_triple_RemoveLast.
    - apply write_triple_RemoveNode.
    - apply write_triple_GetLastNode. }
  destruct (H s Hs) as (evs & Ht & Hg & _).
  by rewrite (events_of_trace _ _ _ Ht).
Qed.

Lemma stores_under_lock_witness :
  mux scenario2 = false ∧
  trace (snd (exec (OpRemoveNode (Some 4%positive)) scenario2))
    = trace scenario2 ++ events_of (exec (OpRemoveNode (Some 4%positive))) scenario2 ∧
  writes_guarded false (events_of (exec (OpRemoveNode (Some 4%positive))) scenario2) = true.
Proof.
  split; [reflexivity |].
  apply (stores_under_lock (OpRemoveNode (Some 4%positive)) scenario2). reflexivity.
Defined.

(** ** No panic on a reachable state *)

Lemma exec_returns op s l :
  inv s l → op_ok s op = true → ∃ r err, fst (exec op s) = Ret (r, err).
Proof.
  intros Hinv Hok. pose proof Hinv as (Hc & Hs & Hm).
  destruct op as [key value ttl now | | node |]; simpl.
  - destruct (Insert_chain key value ttl now s l Hc Hm) as (s' & hd & x & Hr & _).
    rewrite Hr. eauto.
  - destruct (decide (Size (ll s) = 0)) as [Hz | Hz].
    + rewrite RemoveLast_empty by done. eauto.
    + destruct (inv_nonempty s l Hinv Hz) as (l0 & e & ->).
      destruct (RemoveLast_chain s l0 e Hc Hm Hz) as (s' & p & tl & Hr & _).
      rewrite Hr. eauto.
  - destruct node as [e |]; [| done]. simpl in Hok.
    apply bool_decide_eq_true in Hok. rewrite (chain_elements s l Hc) in Hok.
    pose proof Hok as (l1 & l2 & ->)%list_elem_of_split.
    destruct (decide (Size (ll s) = 0)) as [Hz | Hz].
    { rewrite RemoveNode_empty by done. eauto. }
    destruct (decide (Size (ll s) = 1)) as [H1 | H1].
    + destruct (inv_nonempty s _ Hinv Hz) as (l0 & e' & E). rewrite E in *.
      destruct (RemoveNode_single_chain (Some e) s l0 e' Hc Hm H1) as (s' & p & tl & Hr & _).
      rewrite Hr. eauto.
    + destruct (RemoveNode_chain s l1 e l2 Hc Hm Hz H1) as (s' & p & q & Hr & _).
      rewrite Hr. eauto.
  - destruct (decide (Size (ll s) = 0)) as [Hz | Hz].
    + rewrite GetLastNode_empty by done. eauto.
    + destruct (inv_nonempty s l Hinv Hz) as (l0 & e & ->).
      destruct (GetLastNode_chain s l0 e Hc Hm Hz) as (tl & _ & Hr).
      rewrite Hr. eauto.
Qed.

(** X15: no call panics or blocks as long as the contract of [RemoveNode]
    is respected.  In every state reached from a fresh list by such calls, a
    further such call returns, with a node or with an error; this holds for
    sequences of any length, also beyond the range of the int32 counter. *)
Theorem reachable_calls_return (t1 t2 : Z) (heap : gmap loc Node)
    (ops : list Op) (op : Op) :
  ops_ok (InitList t1 t2 heap) (ops ++ [op]) = true →
  ∃ r err, fst (exec op (run ops (InitList t1 t2 heap))) = Ret (r, err).
Proof.
  intros Hok. rewrite ops_ok_app in Hok.
  apply andb_true_iff in Hok as [Hok1 Hok2].
  simpl in Hok2. rewrite andb_true_r in Hok2.
  destruct (reachable_hinv t1 t2 heap ops Hok1) as (l & Hinv & _).
  by eapply exec_returns.
Qed.

Lemma reachable_calls_return_witness :
  let ops := [OpInsert "a" (VInt 1) 60 101; OpRemoveLast; OpRemoveLast] in
  ops_ok (InitList 100 100 ∅) (ops ++ [OpGetLastNode]) = true ∧
  ∃ r err, fst (exec OpGetLastNode (run ops (InitList 100 100 ∅))) = Ret (r, err).
Proof.
  intros ops. split; [reflexivity |].
  apply (reachable_calls_return 100 100 ∅ ops OpGetLastNode). reflexivity.
Defined.
